(** * Discrete particle swarm optimisation for the N-queens problem

    A shallow embedding of [main.py] and [particle_swarm_optimization.py],
    and the properties of the permutation algebra (positions, velocities)
    and of the swarm coordinator that hold of that code.

    Conventions of the embedding.
    - A Python [int] is a [Z]; a Python [float] is an IEEE 754 binary64
      value, [spec_float] with 53 bits of precision and [emax = 1024].
    - A Python list of ints is a [list Z]; indices produced by [range],
      [enumerate] and [random.randrange] are naturals; [l[i]] is the lookup
      [l !! i], and raises [IndexError] where the lookup is [None].
    - A raised exception is the left injection of a sum; a method that
      works on a mutable object takes the object's state and returns the
      outcome together with the state the object is left in.
    - Random draws are read from an oracle: the sequence of values the
      successive calls of [random.randrange] return. *)

From Stdlib Require Import ZArith Lia.
From Stdlib Require Import Floats.SpecFloat.
From stdpp Require Import base list numbers.

Local Open Scope Z_scope.

(** ** Python values and exceptions *)

Inductive exn : Type :=
| ValueError
| TypeError
| IndexError
| OverflowError.

(** [inl e]: the call raised [e]; [inr a]: the call returned [a]. *)
Definition result (A : Type) : Type := (exn + A)%type.

Definition raise {A : Type} (e : exn) : result A := inl e.
Definition ret {A : Type} (a : A) : result A := inr a.

(** Sequencing: an exception raised by the first call propagates. *)
#[global] Instance result_bind : MBind result := fun A B f m =>
  match m with
  | inl e => inl e
  | inr a => f a
  end.

(** [l[i]] on a Python list. *)
Definition getitem {A : Type} (l : list A) (i : nat) : result A :=
  match l !! i with
  | Some a => ret a
  | None => raise IndexError
  end.

(** [enumerate(x)]: the elements paired with their indices, from 0. *)
Definition enumerate {A : Type} (x : list A) : list (Z * A) :=
  imap (fun i a => (Z.of_nat i, a)) x.

(** ** main.py: the cost function *)

(** The body of the inner [for]: one more violated restriction when the
    queens of rows [i] and [j] share a diagonal. *)
Definition cost_inner (iQ : Z * Z) (acc : Z) (jQ : Z * Z) : Z :=
  let '(i, Q_i) := iQ in
  let '(j, Q_j) := jQ in
  if negb (i =? j) && (Z.abs (Q_i - Q_j) =? Z.abs (i - j)) then acc + 1 else acc.

Definition cost_function (x : list Z) : Z :=
  let num_invalid_restrictions :=
    fold_left (fun acc iQ => fold_left (cost_inner iQ) (enumerate x) acc)
              (enumerate x) 0 in
  num_invalid_restrictions / 2.

(** The property the cost function is meant to compute: the number of
    unordered pairs of rows whose queens attack each other diagonally. *)
Definition conflict (x : list Z) (i j : nat) : bool :=
  match x !! i, x !! j with
  | Some Q_i, Some Q_j =>
      Z.abs (Q_i - Q_j) =? Z.abs (Z.of_nat i - Z.of_nat j)
  | _, _ => false
  end.

Definition conflict_pairs (x : list Z) : list (nat * nat) :=
  filter (fun p => (p.1 < p.2)%nat /\ conflict x p.1 p.2 = true)
         (list_prod (seq 0 (length x)) (seq 0 (length x))).

(** ** Floats: IEEE 754 binary64 *)

Definition float : Type := spec_float.

Definition float_mul : float -> float -> float := SFmul 53 1024.

(** The literals [0.0] and [1.0]. *)
Definition float_0 : float := S754_zero false.
Definition float_1 : float := S754_finite false 4503599627370496 (-52).

(** [float(z)], the conversion [n*len(...)] applies to its int operand:
    round to nearest even, [OverflowError] beyond the largest double. *)
Definition float_of_int (z : Z) : result float :=
  match binary_normalize 53 1024 z 0 false with
  | S754_infinity _ => raise OverflowError
  | f => ret f
  end.

(** The integer nearest to m * 2^e, ties to even. *)
Definition round_half_even (m e : Z) : Z :=
  if 0 <=? e then m * 2 ^ e
  else
    let d := 2 ^ (- e) in
    let q := m / d in
    let r := m mod d in
    match 2 * r ?= d with
    | Lt => q
    | Gt => q + 1
    | Eq => if Z.even q then q else q + 1
    end.

(** [round(f)] with one argument: the nearest int, ties to even;
    [ValueError] on NaN and [OverflowError] on an infinity. *)
Definition round (f : float) : result Z :=
  match f with
  | S754_nan => raise ValueError
  | S754_infinity _ => raise OverflowError
  | S754_zero _ => ret 0
  | S754_finite s m e => ret (cond_Zopp s (round_half_even (Zpos m) e))
  end.

(** [l[0:n]]: a negative stop counts from the end, and the stop is
    clamped to the list. *)
Definition slice_to {A : Type} (l : list A) (n : Z) : list A :=
  let len := Z.of_nat (length l) in
  let stop := if n <? 0 then Z.max (n + len) 0 else Z.min n len in
  take (Z.to_nat stop) l.

(** [range(1, n + 1)] *)
Definition range_1 (n : Z) : list Z := Z.of_nat <$> seq 1 (Z.to_nat n).

(** ** OrderedDict: keys in order of first insertion *)

Definition OrderedDict (K V : Type) : Type := list (K * V).

(** [d.update({k: val})]: an existing key keeps its place and takes the
    new value, a new key goes to the end. *)
Fixpoint od_update {K V : Type} `{EqDecision K}
    (d : OrderedDict K V) (k : K) (val : V) : OrderedDict K V :=
  match d with
  | [] => [(k, val)]
  | (k', val') :: d' =>
      if decide (k' = k) then (k', val) :: d'
      else (k', val') :: od_update d' k val
  end.

Definition od_keys {K V : Type} (d : OrderedDict K V) : list K := d.*1.

(** A transposition [(i, j)]: the pair of positions to swap. *)
Definition transposition : Type := (nat * nat)%type.

(** The Python values that reach the dynamically typed operators. An
    instance of [PermutationList] is given by its only attribute. *)
Inductive pyobj : Type :=
| PyNone
| PyInt (z : Z)
| PyFloat (f : float)
| PyList (l : list transposition)
| PyPermutationList (p_list : OrderedDict transposition unit).

(** ** class PermutationList: the velocity of a particle *)

Module PermutationList.

(** The values of [p_list] are all [None]. *)
Record t : Type := mk { p_list : OrderedDict transposition unit }.

Definition obj (self : t) : pyobj := PyPermutationList (p_list self).

Definition __init__ : t := mk [].

Definition add (permutation : transposition) (self : t) : t :=
  mk (od_update (p_list self) permutation tt).

Definition keys (self : t) : list transposition := od_keys (p_list self).

(** [__rmul__] reads [self] and writes nothing; the second component is
    the state [self] is left in. What it returns is a Python list. *)
Definition __rmul__ (self : t) (n : pyobj)
  : result (list transposition) * t :=
  match n with
  | PyInt n => (ret (slice_to (keys self) n), self)
  | PyFloat n =>
      if SFltb n float_0 || SFltb float_1 n then (raise ValueError, self)
      else
        (len ← float_of_int (Z.of_nat (length (keys self)));
         stop ← round (float_mul n len);
         ret (slice_to (keys self) stop), self)
  | _ => (raise TypeError, self)
  end.

Definition __mul__ (self : t) (other : pyobj)
  : result (list transposition) * t :=
  __rmul__ self other.

End PermutationList.

(** ** class Sequence: the position of a particle *)

Module Sequence.

Record t : Type := mk { list_ : list Z }.

(** [shuffle] is what this call of [random.shuffle] does to its list. *)
Definition __init__ (shuffle : list Z -> list Z) (n : Z) : t :=
  mk (shuffle (range_1 n)).

(** The list [Sequence(len(self.list))] shuffles is overwritten. *)
Definition __copy__ (self : t) : t := mk (list_ self).

(** The inner [for j in range(i+1, len(self.list))] of [__sub__], up to
    its [break]: the first [j] with [other_list[j] == searching]. *)
Fixpoint search (other_list : list Z) (searching : Z) (js : list nat)
  : result (option nat) :=
  match js with
  | [] => ret None
  | j :: js' =>
      oj ← getitem other_list j;
      if bool_decide (oj = searching) then ret (Some j)
      else search other_list searching js'
  end.

(** One turn of the [while] of [__sub__], with the drawn index [i], on
    the working copy [other_list] and the delta [v] built so far. *)
Definition sub_body (self_list : list Z) (i : nat)
    (st : list Z * PermutationList.t) : result (list Z * PermutationList.t) :=
  let '(other_list, v) := st in
  si ← getitem self_list i;
  oi ← getitem other_list i;
  if bool_decide (si ≠ oi) then
    found ← search other_list si (seq (S i) (length self_list - S i));
    match found with
    | Some j =>
        ret (<[i := si]> (<[j := oi]> other_list),
             PermutationList.add (i, j) v)
    | None => ret (other_list, v)
    end
  else ret (other_list, v).

(** The [while] of [__sub__]. [randrange k] is the value of the [k]-th
    call of [random.randrange(0, len(self.list))], which raises
    [ValueError] on an empty range. [None]: the loop is still running
    after [fuel] draws. *)
Fixpoint sub_loop (fuel : nat) (randrange : nat -> nat) (k : nat)
    (self_list : list Z) (st : list Z * PermutationList.t)
  : option (result PermutationList.t) :=
  if bool_decide (self_list ≠ st.1) then
    match fuel with
    | O => None
    | S fuel' =>
        if bool_decide (length self_list = 0%nat) then Some (raise ValueError)
        else
          match sub_body self_list (randrange k) st with
          | inl e => Some (inl e)
          | inr st' => sub_loop fuel' randrange (S k) self_list st'
          end
    end
  else Some (ret st.2).

Definition __sub__ (fuel : nat) (randrange : nat -> nat) (self other : t)
  : option (result PermutationList.t) :=
  sub_loop fuel randrange 0 (list_ self) (list_ other, PermutationList.__init__).

(** The [for] of [__add__] on the list of the copy. *)
Fixpoint add_loop (l : list Z) (permutations : list transposition)
  : result (list Z) :=
  match permutations with
  | [] => ret l
  | (i, j) :: rest =>
      aux ← getitem l j;
      li ← getitem l i;
      add_loop (<[i := aux]> (<[j := li]> l)) rest
  end.

(** [__add__] works on a copy and leaves [self] as it is. *)
Definition __add__ (self : t) (permutation_list : pyobj) : result t :=
  match permutation_list with
  | PyPermutationList p_list =>
      l ← add_loop (list_ (__copy__ self))
                   (PermutationList.keys (PermutationList.mk p_list));
      ret (mk l)
  | _ => raise TypeError
  end.

End Sequence.

(** ** Evaluation values *)

(** The value of a position: an int, or the float [inf] the bests start
    from. [int < inf] holds for every int. *)
Inductive number : Type :=
| Int (z : Z)
| Inf.

Definition number_ltb (a b : number) : bool :=
  match a, b with
  | Int x, Int y => x <? y
  | Int _, Inf => true
  | Inf, _ => false
  end.

Definition number_le (a b : number) : Prop :=
  match a, b with
  | Int x, Int y => x <= y
  | _, Inf => True
  | Inf, Int _ => False
  end.

Definition number_lt (a b : number) : Prop := number_ltb a b = true.

(** ** class Particle *)

Module Particle.

Record t : Type := mk {
  x : Sequence.t;
  v : PermutationList.t;
  best : Sequence.t;
  best_value : number
}.

Definition __init__ (shuffle : list Z -> list Z) (n : Z) : t :=
  let x := Sequence.__init__ shuffle n in
  mk x PermutationList.__init__ x Inf.

Definition set_x (x' : Sequence.t) (self : t) : t :=
  mk x' (v self) (best self) (best_value self).

Definition set_best (b : Sequence.t) (bv : number) (self : t) : t :=
  mk (x self) (v self) b bv.

End Particle.

(** ** main.py: class Param *)

Module Param.

Record t : Type := mk {
  num_particles : Z;
  inertia_weight : float;
  cognitive_parameter : float;
  social_parameter : float
}.

(** [Param()]: the defaults of the dataclass. *)
Definition __init__ : t := mk 0 float_0 float_0 float_0.

End Param.

(** ** class ParticleSwarmOptimization *)

Module ParticleSwarmOptimization.

(** [best_global] and [best_iteration] are [None] until first set.
    [generations] is a ghost field, absent from the source: the number
    of calls of [advance_generation] so far. *)
Record t : Type := mk {
  w : float;
  phip : float;
  phig : float;
  best_global : option Sequence.t;
  best_global_value : number;
  best_iteration : option Sequence.t;
  best_iteration_value : number;
  n : Z;
  particles : list Particle.t;
  i : nat;
  generations : nat
}.

(** [shuffle k] is what [random.shuffle] does in the constructor of the
    [k]-th particle. [range] of a negative int is empty. *)
Definition __init__ (shuffle : nat -> list Z -> list Z)
    (hyperparams : Param.t) (n : Z) : t :=
  mk (Param.inertia_weight hyperparams)
     (Param.cognitive_parameter hyperparams)
     (Param.social_parameter hyperparams)
     None Inf
     None Inf
     n
     ((fun k => Particle.__init__ (shuffle k) n)
        <$> seq 0 (Z.to_nat (Param.num_particles hyperparams)))
     0%nat
     0%nat.

Definition set_particles (ps : list Particle.t) (self : t) : t :=
  mk (w self) (phip self) (phig self)
     (best_global self) (best_global_value self)
     (best_iteration self) (best_iteration_value self)
     (n self) ps (i self) (generations self).

Definition set_best_iteration (b : option Sequence.t) (bv : number)
    (self : t) : t :=
  mk (w self) (phip self) (phig self)
     (best_global self) (best_global_value self)
     b bv
     (n self) (particles self) (i self) (generations self).

Definition set_best_global (b : option Sequence.t) (bv : number)
    (self : t) : t :=
  mk (w self) (phip self) (phig self)
     b bv
     (best_iteration self) (best_iteration_value self)
     (n self) (particles self) (i self) (generations self).

Definition set_i (i' : nat) (self : t) : t :=
  mk (w self) (phip self) (phig self)
     (best_global self) (best_global_value self)
     (best_iteration self) (best_iteration_value self)
     (n self) (particles self) i' (generations self).

Definition count_generation (self : t) : t :=
  mk (w self) (phip self) (phig self)
     (best_global self) (best_global_value self)
     (best_iteration self) (best_iteration_value self)
     (n self) (particles self) (i self) (S (generations self)).

Definition get_best_position (self : t) : option Sequence.t * t :=
  (best_global self, self).

Definition get_best_value (self : t) : number * t :=
  (best_global_value self, self).

Definition get_position_to_evaluate (self : t) : result Sequence.t * t :=
  (particle ← getitem (particles self) (i self); ret (Particle.x particle),
   self).

(** The [for] of [advance_generation]. The draws [rp] and [rg] are not
    used. An exception of [+] leaves the particles before it advanced. *)
Fixpoint advance_loop (ps : list Particle.t) : result unit * list Particle.t :=
  match ps with
  | [] => (ret tt, [])
  | particle :: rest =>
      match Sequence.__add__ (Particle.x particle)
              (PermutationList.obj (Particle.v particle)) with
      | inl e => (inl e, particle :: rest)
      | inr x' =>
          let '(r, rest') := advance_loop rest in
          (r, Particle.set_x x' particle :: rest')
      end
  end.

Definition advance_generation (self : t) : result unit * t :=
  let self := count_generation self in
  let '(r, ps) := advance_loop (particles self) in
  (r, set_particles ps self).

(** [self.particles[self.i]] raises [IndexError] at the first test when
    there is no such particle, before any assignment. *)
Definition notify_evaluation (value : number) (self : t) : result unit * t :=
  match particles self !! i self with
  | None => (raise IndexError, self)
  | Some particle =>
      let particle :=
        if number_ltb value (Particle.best_value particle)
        then Particle.set_best (Particle.x particle) value particle
        else particle in
      let self := set_particles (<[i self := particle]> (particles self)) self in
      let self :=
        if number_ltb value (best_iteration_value self)
        then set_best_iteration (Some (Particle.x particle)) value self
        else self in
      if (Z.of_nat (i self) =? Z.of_nat (length (particles self)) - 1) then
        let self := set_i 0%nat self in
        let self :=
          if number_ltb (best_iteration_value self) (best_global_value self)
          then set_best_global (best_iteration self) (best_iteration_value self) self
          else self in
        advance_generation self
      else (ret tt, set_i (i self + 1)%nat self)
  end.

(** The calls a driver makes, and the state a sequence of them leaves. *)
Inductive call : Type :=
| GetPositionToEvaluate
| NotifyEvaluation (value : number).

Definition perform (self : t) (c : call) : t :=
  match c with
  | GetPositionToEvaluate => (get_position_to_evaluate self).2
  | NotifyEvaluation value => (notify_evaluation value self).2
  end.

Definition run (calls : list call) (self : t) : t :=
  fold_left perform calls self.

End ParticleSwarmOptimization.

(** ** Vocabulary of the statements *)

Module Trace.
Import ParticleSwarmOptimization.

Definition is_notification (c : call) : bool :=
  match c with
  | NotifyEvaluation _ => true
  | GetPositionToEvaluate => false
  end.

(** The number of [notify_evaluation] calls in a sequence of calls. *)
Fixpoint notifications (calls : list call) : nat :=
  match calls with
  | [] => 0
  | c :: calls' =>
      ((if is_notification c then 1 else 0) + notifications calls')%nat
  end.

End Trace.

(** A stored best, position and value, after a step: replaced by a
    strictly smaller value, or kept as it was. *)
Definition improved_or_kept {P : Type} (old new : P * number) : Prop :=
  number_lt new.2 old.2 \/ new = old.

(** ** main.py: the hyperparameters of the run *)

(** The decimal literal m / 10^k: the double nearest to it. *)
Definition decimal (m k : Z) : float :=
  SFdiv 53 1024 (binary_normalize 53 1024 m 0 false)
                (binary_normalize 53 1024 (10 ^ k) 0 false).

(** The hyperparameters [main.py] sets, [inertia_weight = 0.7],
    [cognitive_parameter = 0.8], [social_parameter = 0.9], for a given
    number of particles ([main.py] takes 100). *)
Definition hyperparams (num_particles : Z) : Param.t :=
  Param.mk num_particles (decimal 7 1) (decimal 8 1) (decimal 9 1).

(** Shuffles used in the examples: the first particle keeps the list in
    order, the others get it reversed. *)
Definition example_shuffle (k : nat) (l : list Z) : list Z :=
  match k with
  | O => l
  | S _ => reverse l
  end.

(** A delta of two transpositions, built as [__sub__] builds its result. *)
Definition example_delta : PermutationList.t :=
  PermutationList.add (1, 2)%nat
    (PermutationList.add (0, 1)%nat PermutationList.__init__).

(** The number of positions at which two lists hold the same element. *)
Fixpoint matches (a w : list Z) : nat :=
  match a, w with
  | x :: a', y :: w' => ((if decide (x = y) then 1 else 0) + matches a' w')%nat
  | _, _ => 0%nat
  end.

(** The draws of [random.randrange(0, len)] lie below [len]. *)
Definition in_range (randrange : nat -> nat) (len : nat) : Prop :=
  forall k, (randrange k < len)%nat.

(** A sequence of draws in which every index comes again, whatever the
    number of draws already made. *)
Definition fair (randrange : nat -> nat) (len : nat) : Prop :=
  forall k i, (i < len)%nat -> exists k', (k <= k')%nat /\ randrange k' = i.

(** The invariant of the loop of [__sub__], for [self.list = a] and
    [other.list = b]: the working copy is a permutation of [a]; the
    recorded transpositions, applied in order, take [b] to the working
    copy; the position each of them fixed still matches; each of them
    added a match. *)
Definition sub_inv (a b : list Z) (st : list Z * PermutationList.t) : Prop :=
  st.1 ≡ₚ a /\
  Sequence.add_loop b (PermutationList.keys st.2) = ret st.1 /\
  (forall i j, (i, j) ∈ PermutationList.keys st.2 -> a !! i = st.1 !! i) /\
  (length (PermutationList.keys st.2) + matches a b <= matches a st.1)%nat.

(** Draws 0, 1, 2, 0, 1, 2, ... *)
Definition round_robin_3 (k : nat) : nat := (k mod 3)%nat.

(** Sums over lists, for counting the pairs of the cost function. *)
Fixpoint sumZ {A : Type} (f : A -> Z) (l : list A) : Z :=
  match l with
  | [] => 0
  | a :: l' => f a + sumZ f l'
  end.

Definition b2z (b : bool) : Z := if b then 1 else 0.

(** The test of [cost_function] on the rows [i] and [j] of [x]. *)
Definition attacks (x : list Z) (i j : nat) : bool :=
  Z.abs (default 0 (x !! i) - default 0 (x !! j)) =? Z.abs (Z.of_nat i - Z.of_nat j).

Definition lt_attacks (x : list Z) (i j : nat) : Z :=
  b2z (bool_decide (i < j)%nat && attacks x i j).

(** ** Vocabulary for the values a driver reports *)

Module Reports.
Import ParticleSwarmOptimization.

(** The values of the [notify_evaluation] calls of a sequence of calls,
  in order. *)
Fixpoint reported (calls : list call) : list number :=
match calls with
| [] => []
| GetPositionToEvaluate :: calls' => reported calls'
| NotifyEvaluation value :: calls' => value :: reported calls'
end.

End Reports.

(** [m] is the least of [vals]; [inf] when there is none. *)
Definition is_minimum (m : number) (vals : list number) : Prop :=
  Forall (number_le m) vals /\ (m ∈ vals \/ m = Inf).

(** [j] is the first index at which [vals] holds [m]. *)
Definition first_at (m : number) (vals : list number) (j : nat) : Prop :=
  vals !! j = Some m /\ forall j', (j' < j)%nat -> vals !! j' ≠ Some m.

(** A stored best, position and value, against the reports [vals] seen by
    it, for a swarm of [N] particles at the positions [position k]: the
    value is the least report; the position is unset while the value is
    [inf], and is otherwise the position of the particle that made the
    first report of that value. *)
Definition best_of_reports (N : nat) (position : nat -> Sequence.t)
    (vals : list number) (best : option Sequence.t * number) : Prop :=
  is_minimum best.2 vals /\
  match best.2 with
  | Inf => best.1 = None
  | Int z =>
      exists j, first_at (Int z) vals j /\ best.1 = Some (position (j mod N)%nat)
  end.

(** The reports of the particle of index [k] among the reports [vals] of
    a swarm of [N] particles, the first of which has index [j] in the
    run: those at the indices congruent to [k] modulo [N]. *)
Fixpoint reports_of (N k j : nat) (vals : list number) : list number :=
  match vals with
  | [] => []
  | value :: vals' =>
      (if decide ((j mod N)%nat = k) then [value] else [])
        ++ reports_of N k (S j) vals'
  end.

(** ** main.py: the driver *)

Module Main.
Import ParticleSwarmOptimization.

(** The variables of the script that its loop updates. *)
Record t : Type := mk {
pso : ParticleSwarmOptimization.t;
position_history : list (list Z);
quality_history : list Z
}.

(** One turn of the [for] of the script. An exception ends the script. *)
Definition body (st : t) : result t :=
let '(r, pso1) := get_position_to_evaluate (pso st) in
position ← r;
let value := cost_function (Sequence.list_ position) in
let '(r', pso2) := notify_evaluation (Int value) pso1 in
_ ← r';
ret (mk pso2
        (position_history st ++ [Sequence.list_ position])
        (quality_history st ++ [value])).

(** [for i in range(num_evaluations)] *)
Fixpoint loop (num_evaluations : nat) (st : t) : result t :=
match num_evaluations with
| O => ret st
| S num_evaluations' => st' ← body st; loop num_evaluations' st'
end.

(** The script for given hyperparameters and size, up to its two [print]
  calls; it takes [hyperparams 100] and [8]. What it returns is the
  state the loop leaves, of which the script prints
  [pso.get_best_position()] and [pso.get_best_value()]. *)
Definition main (shuffle : nat -> list Z -> list Z)
  (hyperparams : Param.t) (n : Z) : result t :=
let pso := __init__ shuffle hyperparams n in
let num_evaluations := 1000 * Param.num_particles hyperparams in
loop (Z.to_nat num_evaluations) (mk pso [] []).

End Main.

(** The value the driver reports at its [j]-th turn when the particle of
    index [k] stays at [position k]: the cost of the position of the
    particle [j mod N]. *)
Definition evaluation (position : nat -> Sequence.t) (N j : nat) : Z :=
  cost_function (Sequence.list_ (position (j mod N)%nat)).

(** ** class Sequence: the distance *)

(** What [get_distance_to] is given for [other_seq]: a list, or a
    [Sequence], a class without [__getitem__]. *)
Inductive other_seq_arg : Type :=
| AList (l : list Z)
| ASequence (s : Sequence.t).

(** [other_seq[i]] *)
Definition subscript (other_seq : other_seq_arg) (i : nat) : result Z :=
  match other_seq with
  | AList l => getitem l i
  | ASequence _ => raise TypeError
  end.

(** The [for i, val in enumerate(self.list)] of [get_distance_to], from
    the index [i] on, with the count so far. *)
Fixpoint distance_loop (other_seq : other_seq_arg) (i : nat) (l : list Z)
    (count : Z) : result Z :=
  match l with
  | [] => ret count
  | val :: l' =>
      o ← subscript other_seq i;
      distance_loop other_seq (S i) l'
        (if bool_decide (val ≠ o) then count + 1 else count)
  end.

Definition get_distance_to (self : Sequence.t) (other_seq : other_seq_arg)
  : result Z :=
  distance_loop other_seq 0 (Sequence.list_ self) 0.

(** A transposition whose positions are positions of a list of length
    [len]. *)
Definition within (len : nat) (p : transposition) : Prop :=
  (p.1 < len)%nat /\ (p.2 < len)%nat.

(** ** class Sequence: [__add__] on any delta *)

(** [PermutationList.add] takes any key, so a delta given to [__add__]
    can hold pairs of any ints, where [__sub__] only records pairs
    [(i, j)] with [0 <= i < j < len]. The definitions below follow
    [__add__] on such a delta. *)

(** The place a subscript [i] names in a list of length [len]: a negative
    [i] counts from the end; [None] stands for the [IndexError] of an
    index outside [-len .. len - 1]. *)
Definition list_index (len : nat) (i : Z) : option nat :=
  if bool_decide (0 <= i) then
    if bool_decide (i < Z.of_nat len) then Some (Z.to_nat i) else None
  else
    if bool_decide (0 <= i + Z.of_nat len)
    then Some (Z.to_nat (i + Z.of_nat len)) else None.

(** [l[i]] for an int [i] *)
Definition getitem_int (l : list Z) (i : Z) : result Z :=
  match list_index (length l) i with
  | Some k => getitem l k
  | None => raise IndexError
  end.

(** [l[i] = val] for an int [i] *)
Definition setitem_int (l : list Z) (i : Z) (val : Z) : result (list Z) :=
  match list_index (length l) i with
  | Some k => ret (<[k := val]> l)
  | None => raise IndexError
  end.

(** A [PermutationList] whose keys are pairs of ints. *)
Definition int_delta : Type := OrderedDict (Z * Z) unit.

(** The [for] of [__add__] on the list of the copy, statement by
    statement. *)
Fixpoint add_loop_int (l : list Z) (permutations : list (Z * Z))
  : result (list Z) :=
  match permutations with
  | [] => ret l
  | (i, j) :: rest =>
      aux ← getitem_int l j;
      li ← getitem_int l i;
      l1 ← setitem_int l j li;
      l2 ← setitem_int l1 i aux;
      add_loop_int l2 rest
  end.

(** [self + permutation_list] for a [PermutationList] of int pairs. *)
Definition add_int (self : Sequence.t) (permutation_list : int_delta)
  : result Sequence.t :=
  l ← add_loop_int (Sequence.list_ (Sequence.__copy__ self))
                   (od_keys permutation_list);
  ret (Sequence.mk l).

(** A delta of the kind [__sub__] builds, as a delta of int pairs. *)
Definition int_keys (d : PermutationList.t) : int_delta :=
  (fun kv => ((Z.of_nat kv.1.1, Z.of_nat kv.1.2), kv.2))
    <$> PermutationList.p_list d.

(** Both positions of a pair are subscripts of a list of length [len]. *)
Definition within_int (len : nat) (p : Z * Z) : Prop :=
  (- Z.of_nat len <= p.1 < Z.of_nat len) /\
  (- Z.of_nat len <= p.2 < Z.of_nat len).

(** The place each position of a pair names in a list of length [len]. *)
Definition places (len : nat) (p : Z * Z) : transposition :=
  (default 0%nat (list_index len p.1), default 0%nat (list_index len p.2)).

(** The delta [d] with its transpositions in reverse order. *)
Definition reversed (d : int_delta) : int_delta := reverse d.

(** ** class Particle: update *)

Module ParticleObject.

(** What the attribute [v] of a particle holds: the [PermutationList] of
  the constructor, or the list [update] assigns. *)
Inductive velocity : Type :=
| VPermutationList (p : PermutationList.t)
| VList (l : list transposition).

Definition obj (v : velocity) : pyobj :=
match v with
| VPermutationList p => PermutationList.obj p
| VList l => PyList l
end.

Record t : Type := mk {
x : Sequence.t;
v : velocity;
best : Sequence.t;
best_value : number
}.

(** The particle as the constructor and the coordinator leave it. *)
Definition of_particle (p : Particle.t) : t :=
mk (Particle.x p) (VPermutationList (Particle.v p))
   (Particle.best p) (Particle.best_value p).

Definition set_v (v' : velocity) (self : t) : t :=
mk (x self) v' (best self) (best_value self).

Definition set_x (x' : Sequence.t) (self : t) : t :=
mk x' (v self) (best self) (best_value self).

(** [w * self.v] for a float [w]: [PermutationList.__rmul__] on a
  [PermutationList]; a list is not multiplied by a float. *)
Definition scale_velocity (w : float) (v : velocity)
: result (list transposition) :=
match v with
| VPermutationList p => (PermutationList.__rmul__ p (PyFloat w)).1
| VList _ => raise TypeError
end.

(** [update], with float coefficients and [best_global] a [Sequence] or
  [None]. The operands are evaluated from left to right; the scalings
  return lists, which [+] concatenates. [randrange_p] and [randrange_g]
  are the draws of the two differences; [None]: a difference is still
  running after [fuel] draws. The second component is the particle as
  the call leaves it. *)
Definition update (fuel : nat) (randrange_p randrange_g : nat -> nat)
  (w phip rp phig rg : float) (best_global : option Sequence.t) (self : t)
: option (result unit * t) :=
match scale_velocity w (v self) with
| inl e => Some (inl e, self)
| inr a =>
match Sequence.__sub__ fuel randrange_p (best self) (x self) with
| None => None
| Some (inl e) => Some (inl e, self)
| Some (inr dp) =>
match (PermutationList.__rmul__ dp (PyFloat (float_mul phip rp))).1 with
| inl e => Some (inl e, self)
| inr b =>
match best_global with
| None => Some (raise TypeError, self)
| Some best_global =>
match Sequence.__sub__ fuel randrange_g best_global (x self) with
| None => None
| Some (inl e) => Some (inl e, self)
| Some (inr dg) =>
match (PermutationList.__rmul__ dg (PyFloat (float_mul phig rg))).1 with
| inl e => Some (inl e, self)
| inr c =>
    let self := set_v (VList ((a ++ b) ++ c)) self in
    match Sequence.__add__ (x self) (obj (v self)) with
    | inl e => Some (inl e, self)
    | inr x' => Some (ret tt, set_x x' self)
    end
end end end end end end.

End ParticleObject.

(** ** The definitions on concrete inputs *)

Example cost_function_eight_queens :
  cost_function [1; 5; 8; 6; 3; 7; 2; 4] = 0.
Proof. reflexivity. Qed.

Example decimal_0_7 : decimal 7 1 = S754_finite false 6305039478318694 (-53).
Proof. reflexivity. Qed.

Example round_ties_to_even :
  round (decimal 5 1) = ret 0 /\ round (decimal 15 1) = ret 2 /\
  round (decimal 25 1) = ret 2 /\
  round (float_mul (decimal 7 1) (decimal 30 1)) = ret 2.
Proof. repeat split; reflexivity. Qed.

Example add_keeps_first_insertion :
  PermutationList.keys (PermutationList.add (0, 1)%nat example_delta)
  = [(0, 1)%nat; (1, 2)%nat].
Proof. reflexivity. Qed.

Example rmul_half :
  (PermutationList.__rmul__ example_delta (PyFloat (decimal 5 1))).1
  = ret [(0, 1)%nat].
Proof. reflexivity. Qed.

Example rmul_negative_int :
  (PermutationList.__rmul__ example_delta (PyInt (-1))).1 = ret [(0, 1)%nat].
Proof. reflexivity. Qed.

Example rmul_none :
  (PermutationList.__rmul__ example_delta PyNone).1 = raise TypeError.
Proof. reflexivity. Qed.

Example sub_reversed :
  Sequence.__sub__ 10 round_robin_3
    (Sequence.mk [1; 2; 3; 4]) (Sequence.mk [4; 3; 2; 1])
  = Some (ret (PermutationList.add (1, 2)%nat
                 (PermutationList.add (0, 3)%nat PermutationList.__init__))).
Proof. reflexivity. Qed.

Example sub_shorter_other :
  Sequence.__sub__ 10 round_robin_3 (Sequence.mk [1; 2; 3]) (Sequence.mk [3; 1])
  = Some (raise IndexError).
Proof. reflexivity. Qed.

Example add_list_object :
  Sequence.__add__ (Sequence.mk [3; 1; 2]) (PyList [(0, 1)%nat])
  = raise TypeError.
Proof. reflexivity. Qed.

Example notify_without_particle :
  (ParticleSwarmOptimization.notify_evaluation (Int 0)
     (ParticleSwarmOptimization.__init__ example_shuffle Param.__init__ 8)).1
  = raise IndexError.
Proof. reflexivity. Qed.

(** ** Counting lemmas for the cost function *)

Section Sums.
Context {A : Type}.

Lemma sumZ_app (f : A -> Z) l1 l2 :
  sumZ f (l1 ++ l2) = sumZ f l1 + sumZ f l2.
Proof. induction l1 as [|a l1 IH]; simpl; lia. Qed.

Lemma sumZ_plus (f g : A -> Z) l :
  sumZ (fun a => f a + g a) l = sumZ f l + sumZ g l.
Proof. induction l as [|a l IH]; simpl; lia. Qed.

Lemma sumZ_ext_in (f g : A -> Z) l :
  (forall a, a ∈ l -> f a = g a) -> sumZ f l = sumZ g l.
Proof.
  induction l as [|a l IH]; intros H; simpl; [done|].
  rewrite (H a) by constructor. rewrite IH; [done|].
  intros b Hb. apply H. by constructor.
Qed.

Lemma sumZ_zero (l : list A) : sumZ (fun _ => 0) l = 0.
Proof. induction l as [|a l IH]; simpl; lia. Qed.
End Sums.

Lemma sumZ_fmap {A B : Type} (g : A -> B) (f : B -> Z) (l : list A) :
  sumZ f (g <$> l) = sumZ (fun a => f (g a)) l.
Proof. induction l as [|a l IH]; csimpl; [done|]. by rewrite IH. Qed.

Lemma sumZ_exchange {A B : Type} (F : A -> B -> Z) (l1 : list A) (l2 : list B) :
  sumZ (fun a => sumZ (fun b => F a b) l2) l1 =
  sumZ (fun b => sumZ (fun a => F a b) l1) l2.
Proof.
  induction l1 as [|a l1 IH]; simpl.
  - by rewrite sumZ_zero.
  - rewrite IH. by rewrite sumZ_plus.
Qed.

(** The inner and the outer loop of [cost_function] as sums. *)
Lemma cost_inner_fold iQ (l : list (Z * Z)) (acc : Z) :
  fold_left (cost_inner iQ) l acc =
  acc + sumZ (fun jQ => cost_inner iQ 0 jQ) l.
Proof.
  revert acc. induction l as [|jQ l IH]; intros acc; simpl; [lia|].
  rewrite IH. destruct iQ as [i Qi], jQ as [j Qj]. simpl.
  destruct (negb (i =? j) && (Z.abs (Qi - Qj) =? Z.abs (i - j))); lia.
Qed.

Lemma cost_outer_fold (l l2 : list (Z * Z)) (acc : Z) :
  fold_left (fun acc iQ => fold_left (cost_inner iQ) l2 acc) l acc =
  acc + sumZ (fun iQ => sumZ (fun jQ => cost_inner iQ 0 jQ) l2) l.
Proof.
  revert acc. induction l as [|iQ l IH]; intros acc; simpl; [lia|].
  rewrite IH, cost_inner_fold. lia.
Qed.

Lemma enumerate_seq (x : list Z) :
  enumerate x = (fun i => (Z.of_nat i, default 0 (x !! i))) <$> seq 0 (length x).
Proof.
  unfold enumerate.
  enough (H : forall (f : nat -> nat),
    imap (fun i a => (Z.of_nat (f i), a)) x =
    (fun i => (Z.of_nat (f i), default 0 (x !! i))) <$> seq 0 (length x))
    by apply (H id).
  induction x as [|a x IH]; intros f; simpl; [done|].
  f_equal. rewrite <- fmap_S_seq, <- list_fmap_compose.
  apply (IH (f ∘ S)).
Qed.

Lemma attacks_sym x i j : attacks x i j = attacks x j i.
Proof.
  unfold attacks.
  replace (default 0 (x !! j) - default 0 (x !! i))
    with (- (default 0 (x !! i) - default 0 (x !! j))) by lia.
  replace (Z.of_nat j - Z.of_nat i) with (- (Z.of_nat i - Z.of_nat j)) by lia.
  by rewrite !Z.abs_opp.
Qed.

Lemma cost_function_sum (x : list Z) :
  cost_function x =
  sumZ (fun i => sumZ (fun j => lt_attacks x i j) (seq 0 (length x)))
       (seq 0 (length x)).
Proof.
  unfold cost_function. rewrite cost_outer_fold, enumerate_seq, Z.add_0_l.
  rewrite sumZ_fmap.
  set (n := seq 0 (length x)).
  set (S1 := sumZ (fun i => sumZ (fun j => lt_attacks x i j) n) n).
  enough (H : sumZ (fun a => sumZ (fun jQ =>
              cost_inner (Z.of_nat a, default 0 (x !! a)) 0 jQ)
              ((fun i => (Z.of_nat i, default 0 (x !! i))) <$> n)) n = 2 * S1).
  { rewrite H. rewrite Z.mul_comm. apply Z.div_mul. lia. }
  transitivity (sumZ (fun i => sumZ (fun j => lt_attacks x i j + lt_attacks x j i) n) n).
  - apply sumZ_ext_in. intros i _. rewrite sumZ_fmap.
    apply sumZ_ext_in. intros j _. simpl.
    unfold lt_attacks. rewrite (attacks_sym x j i). unfold attacks.
    destruct (Z.abs _ =? Z.abs _); rewrite ?andb_true_r, ?andb_false_r;
      [|done].
    destruct (Z.eqb_spec (Z.of_nat i) (Z.of_nat j)) as [E|E]; simpl.
    + rewrite !bool_decide_eq_false_2 by lia. done.
    + destruct (decide (i < j)%nat).
      * rewrite bool_decide_eq_true_2, bool_decide_eq_false_2 by lia. done.
      * rewrite bool_decide_eq_false_2, bool_decide_eq_true_2 by lia. done.
  - transitivity (sumZ (fun i => sumZ (fun j => lt_attacks x i j) n
                               + sumZ (fun j => lt_attacks x j i) n) n).
    { apply sumZ_ext_in. intros i _. apply sumZ_plus. }
    rewrite sumZ_plus.
    rewrite (sumZ_exchange (fun i j => lt_attacks x j i)).
    fold S1. lia.
Qed.

Lemma filter_pairs_length {A B : Type} (P : A * B -> Prop)
    `{!forall p, Decision (P p)} (l1 : list A) (l2 : list B) :
  Z.of_nat (length (filter P (list_prod l1 l2))) =
  sumZ (fun a => sumZ (fun b => b2z (bool_decide (P (a, b)))) l2) l1.
Proof.
  induction l1 as [|a l1 IH]; [done|].
  cbn [list_prod sumZ].
  rewrite list.filter_app, length_app, Nat2Z.inj_add, IH. f_equal.
  clear IH. induction l2 as [|b l2 IH]; [done|].
  cbn [map sumZ]. rewrite list.filter_cons.
  case_bool_decide as Hd.
  - rewrite decide_True by done. cbn [length b2z]. lia.
  - rewrite decide_False by done. cbn [b2z]. lia.
Qed.

Lemma cost_function_conflict_pairs (x : list Z) :
  cost_function x = Z.of_nat (length (conflict_pairs x)).
Proof.
  rewrite cost_function_sum. unfold conflict_pairs.
  rewrite filter_pairs_length.
  apply sumZ_ext_in. intros i Hi. apply sumZ_ext_in. intros j Hj.
  apply elem_of_seq in Hi, Hj. simpl in *.
  unfold lt_attacks, conflict, attacks.
  destruct (lookup_lt_is_Some_2 x i) as [a Ha]; [lia|].
  destruct (lookup_lt_is_Some_2 x j) as [b Hb]; [lia|].
  rewrite Ha, Hb. simpl.
  destruct (decide (i < j)%nat) as [Hlt|Hlt];
    destruct (Z.abs (a - b) =? Z.abs (Z.of_nat i - Z.of_nat j)) eqn:E.
  - rewrite !bool_decide_eq_true_2; [done| |done]. by split.
  - rewrite bool_decide_eq_true_2 by done.
    rewrite bool_decide_eq_false_2; [done|]. by intros [_ ?].
  - rewrite !bool_decide_eq_false_2; [done| |done]. by intros [? _].
  - rewrite !bool_decide_eq_false_2; [done| |done]. by intros [? _].
Qed.

(** C10 (as amended). The cost function counts the unordered pairs of
    rows [i < j] whose queens satisfy [|Q_i - Q_j| = |i - j|]; it returns
    6 for [[1,2,3,4]] (all six pairs lie on the main diagonal) and 0 for
    [[2,4,1,3]]. *)
Theorem cost_function_reference :
  (forall x : list Z, cost_function x = Z.of_nat (length (conflict_pairs x))) /\
  cost_function [1; 2; 3; 4] = 6 /\
  cost_function [2; 4; 1; 3] = 0.
Proof.
  split; [apply cost_function_conflict_pairs|].
  split; reflexivity.
Qed.

(** C10, counterexample: the value for [[1,2,3,4]] is not 3. *)
Lemma cost_function_1234_not_3 :
  ~ (cost_function [1; 2; 3; 4] = 3 /\ cost_function [2; 4; 1; 3] = 0).
Proof. intros [H _]. vm_compute in H. discriminate H. Qed.

(** ** The swarm coordinator *)

Section Coordinator.
Import ParticleSwarmOptimization.

Lemma run_snoc calls c self :
  run (calls ++ [c]) self = perform (run calls self) c.
Proof. unfold run. by rewrite fold_left_app. Qed.

Lemma sequence_eta (s : Sequence.t) : Sequence.mk (Sequence.list_ s) = s.
Proof. by destruct s. Qed.

(** Adding the empty delta returns a copy with the same elements. *)
Lemma add_empty (s : Sequence.t) :
  Sequence.__add__ s (PermutationList.obj PermutationList.__init__) = ret s.
Proof. destruct s. reflexivity. Qed.

Lemma advance_loop_length ps :
  length (advance_loop ps).2 = length ps.
Proof.
  induction ps as [|p ps IH]; [done|]. cbn [advance_loop].
  destruct (Sequence.__add__ _ _); [done|].
  destruct (advance_loop ps) as [r ps']. simpl in *. by rewrite IH.
Qed.

Lemma advance_loop_empty ps :
  Forall (fun p => Particle.v p = PermutationList.__init__) ps ->
  advance_loop ps = (ret tt, ps).
Proof.
  induction 1 as [|p ps Hp _ IH]; [done|]. cbn [advance_loop].
  rewrite Hp, add_empty, IH. destruct p; by simplify_eq/=.
Qed.

(** What a generation advance does to each particle. *)
Lemma advance_loop_lookup ps k p' :
  (advance_loop ps).2 !! k = Some p' ->
  exists p, ps !! k = Some p /\
    Particle.v p' = Particle.v p /\
    Particle.best p' = Particle.best p /\
    Particle.best_value p' = Particle.best_value p /\
    (Particle.x p' = Particle.x p \/
     Sequence.__add__ (Particle.x p) (PermutationList.obj (Particle.v p))
       = inr (Particle.x p')).
Proof.
  revert k. induction ps as [|p ps IH]; intros k; [done|].
  cbn [advance_loop].
  destruct (Sequence.__add__ _ _) as [e|x'] eqn:Hadd.
  { intros H. exists p'. simpl in H. by eauto 10. }
  destruct (advance_loop ps) as [r ps'] eqn:E. simpl in *.
  destruct k as [|k]; simpl.
  - intros [= <-]. exists p. by eauto 10.
  - apply IH.
Qed.

Ltac unfold_setters :=
  cbn [set_particles set_best_iteration set_best_global set_i count_generation
       w phip phig best_global best_global_value best_iteration
       best_iteration_value n particles i generations fst snd andb] in *.

(** One notification, field by field: [p] is the particle under the
    cursor, [last] tells whether it closes the round. *)
Lemma notify_evaluation_spec value self p :
  particles self !! i self = Some p ->
  let self' := (notify_evaluation value self).2 in
  let last := bool_decide (S (i self) = length (particles self)) in
  (best_iteration self', best_iteration_value self') =
    (if number_ltb value (best_iteration_value self)
     then (Some (Particle.x p), value)
     else (best_iteration self, best_iteration_value self)) /\
  (best_global self', best_global_value self') =
    (if last && number_ltb (best_iteration_value self') (best_global_value self)
     then (best_iteration self', best_iteration_value self')
     else (best_global self, best_global_value self)) /\
  i self' = (if last then 0%nat else S (i self)) /\
  generations self' =
    (if last then S (generations self) else generations self) /\
  length (particles self') = length (particles self) /\
  (forall k q', particles self' !! k = Some q' ->
     exists q, particles self !! k = Some q /\
       Particle.v q' = Particle.v q /\
       (Particle.best q', Particle.best_value q') =
         (if bool_decide (k = i self) &&
             number_ltb value (Particle.best_value q)
          then (Particle.x q, value)
          else (Particle.best q, Particle.best_value q)) /\
       (Particle.x q' = Particle.x q \/
        (last = true /\
         Sequence.__add__ (Particle.x q) (PermutationList.obj (Particle.v q))
           = inr (Particle.x q')))).
Proof.
  intros Hp self' last. subst self'. unfold notify_evaluation. rewrite Hp.
  assert (Hi : (i self < length (particles self))%nat)
    by (eapply lookup_lt_Some; eauto).
  set (p1 := if number_ltb value (Particle.best_value p) then _ else p).
  assert (Hp1 : Particle.x p1 = Particle.x p /\ Particle.v p1 = Particle.v p /\
     (Particle.best p1, Particle.best_value p1) =
       (if number_ltb value (Particle.best_value p)
        then (Particle.x p, value)
        else (Particle.best p, Particle.best_value p))).
  { unfold p1. destruct (number_ltb value (Particle.best_value p)); done. }
  clearbody p1. destruct Hp1 as (Hx1 & Hv1 & Hb1).
  assert (Hlk : forall k q', <[i self := p1]> (particles self) !! k = Some q' ->
     exists q, particles self !! k = Some q /\
       Particle.x q' = Particle.x q /\
       Particle.v q' = Particle.v q /\
       (Particle.best q', Particle.best_value q') =
         (if bool_decide (k = i self) &&
             number_ltb value (Particle.best_value q)
          then (Particle.x q, value)
          else (Particle.best q, Particle.best_value q))).
  { intros k q' Hk. destruct (decide (k = i self)) as [->|Hne].
    - rewrite list_lookup_insert_eq in Hk by done. injection Hk as <-.
      exists p. rewrite bool_decide_eq_true_2 by done. done.
    - rewrite list_lookup_insert_ne in Hk by done.
      exists q'. rewrite bool_decide_eq_false_2 by done. done. }
  destruct self as [w0 phip0 phig0 bg bgv bi biv n0 ps i0 g].
  unfold_setters. subst last.
  destruct (number_ltb value biv); unfold_setters;
    rewrite length_insert, ?Hx1;
    (destruct (bool_decide_reflect (S i0 = length ps)) as [Hlast|Hlast];
     [ rewrite (proj2 (Z.eqb_eq _ _)) by lia
     | rewrite (proj2 (Z.eqb_neq _ _)) by lia ]);
    unfold_setters.
  1, 3: (match goal with
     | |- context [if number_ltb ?a ?b then set_best_global _ _ _ else _] =>
         destruct (number_ltb a b) eqn:Hg
     end);
    unfold advance_generation; unfold_setters;
    (destruct (advance_loop (<[i0:=p1]> ps)) as [r ps'] eqn:E);
    unfold_setters; rewrite ?Hg;
    (assert (Hps' : ps' = (advance_loop (<[i0:=p1]> ps)).2) by (by rewrite E));
    (repeat split; try reflexivity;
     first
     [ by rewrite Hps', advance_loop_length, length_insert
     | intros k q' Hk; rewrite Hps' in Hk;
       apply advance_loop_lookup in Hk as (q1 & Hk & Hv & Hb & Hbv & Hx);
       apply Hlk in Hk as (q & Hq & Hxq & Hvq & Hbq);
       exists q; split; [done|]; split; [congruence|];
       split; [congruence|];
       destruct Hx as [Hx|Hx]; [left; congruence|];
       right; split; [done|]; by rewrite <- Hxq, <- Hvq ]).
  all: (repeat split; try reflexivity;
     first
     [ lia
     | by rewrite length_insert
     | intros k q' Hk; apply Hlk in Hk as (q & Hq & Hxq & Hvq & Hbq);
       exists q; by eauto 10 ]).
Qed.

Lemma notify_evaluation_no_particle value self :
  particles self !! i self = None ->
  notify_evaluation value self = (raise IndexError, self).
Proof. intros H. unfold notify_evaluation. by rewrite H. Qed.

Lemma perform_get self : perform self GetPositionToEvaluate = self.
Proof. reflexivity. Qed.

(** Two lists of particles agree on a field when each particle of the
    second comes from the particle of the first at the same index. *)
Lemma fmap_eq_lookup {B : Type} (f : Particle.t -> B) (ps ps' : list Particle.t) :
  length ps' = length ps ->
  (forall k q', ps' !! k = Some q' -> exists q, ps !! k = Some q /\ f q' = f q) ->
  f <$> ps' = f <$> ps.
Proof.
  intros Hlen H. apply list_eq. intros k. rewrite !list_lookup_fmap.
  destruct (ps' !! k) as [q'|] eqn:E.
  - destruct (H k q' E) as (q & -> & Hf). simpl. by rewrite Hf.
  - apply lookup_ge_None in E. rewrite Hlen in E.
    apply lookup_ge_None in E. by rewrite E.
Qed.

Lemma number_ltb_irrefl a : number_ltb a a = false.
Proof. destruct a; simpl; [apply Z.ltb_irrefl|done]. Qed.

Lemma number_le_refl a : number_le a a.
Proof. destruct a; simpl; [lia|done]. Qed.

Lemma number_le_trans a b c : number_le a b -> number_le b c -> number_le a c.
Proof. destruct a, b, c; simpl; try done; lia. Qed.

Lemma number_lt_le a b : number_lt a b -> number_le a b.
Proof.
  unfold number_lt. destruct a, b; simpl; try done.
  intros H%Z.ltb_lt. lia.
Qed.

Lemma improved_or_kept_le {P : Type} (old new : P * number) :
  improved_or_kept old new -> number_le new.2 old.2.
Proof.
  intros [H| ->]; [by apply number_lt_le|apply number_le_refl].
Qed.

(** The state a notification leaves when no particle is under the cursor. *)
Lemma notify_evaluation_raises value self :
  particles self !! i self = None -> (notify_evaluation value self).2 = self.
Proof. intros H. by rewrite notify_evaluation_no_particle. Qed.

(** Each stored best after one notification. *)
Lemma notify_evaluation_bests value self :
  let self' := (notify_evaluation value self).2 in
  (forall k q', particles self' !! k = Some q' ->
     exists q, particles self !! k = Some q /\
       improved_or_kept (Particle.best q, Particle.best_value q)
                        (Particle.best q', Particle.best_value q')) /\
  improved_or_kept (best_iteration self, best_iteration_value self)
                   (best_iteration self', best_iteration_value self') /\
  improved_or_kept (best_global self, best_global_value self)
                   (best_global self', best_global_value self').
Proof.
  intros self'. subst self'.
  destruct (particles self !! i self) as [p|] eqn:Hp.
  2: { rewrite notify_evaluation_raises by done.
       split; [|split]; [|by right..].
       intros k q' Hk. exists q'. split; [done|by right]. }
  destruct (notify_evaluation_spec value self p Hp)
    as (Hbi & Hbg & _ & _ & _ & Hps).
  split; [|split].
  - intros k q' Hk. destruct (Hps k q' Hk) as (q & Hq & _ & Hb & _).
    exists q. split; [done|]. rewrite Hb.
    destruct (bool_decide (k = i self)); simpl; [|by right].
    destruct (number_ltb value (Particle.best_value q)) eqn:E; [by left|by right].
  - rewrite Hbi.
    destruct (number_ltb value (best_iteration_value self)) eqn:E;
      [by left|by right].
  - rewrite Hbg.
    destruct (bool_decide _); simpl; [|by right].
    destruct (number_ltb _ (best_global_value self)) eqn:E; [by left|by right].
Qed.

Lemma perform_bests self c :
  let self' := perform self c in
  (forall k q', particles self' !! k = Some q' ->
     exists q, particles self !! k = Some q /\
       number_le (Particle.best_value q') (Particle.best_value q)) /\
  number_le (best_iteration_value self') (best_iteration_value self) /\
  number_le (best_global_value self') (best_global_value self).
Proof.
  destruct c as [|value]; simpl.
  - split; [|split]; [|apply number_le_refl..].
    intros k q' Hk. exists q'. split; [done|apply number_le_refl].
  - destruct (notify_evaluation_bests value self) as (Hp & Hi & Hg).
    split; [|split].
    + intros k q' Hk. destruct (Hp k q' Hk) as (q & Hq & H).
      exists q. split; [done|]. by apply improved_or_kept_le in H.
    + by apply improved_or_kept_le in Hi.
    + by apply improved_or_kept_le in Hg.
Qed.

Lemma run_bests calls self :
  let self' := run calls self in
  (forall k q', particles self' !! k = Some q' ->
     exists q, particles self !! k = Some q /\
       number_le (Particle.best_value q') (Particle.best_value q)) /\
  number_le (best_iteration_value self') (best_iteration_value self) /\
  number_le (best_global_value self') (best_global_value self).
Proof.
  induction calls as [|c calls IH] using rev_ind; simpl.
  - split; [|split]; [|apply number_le_refl..].
    intros k q' Hk. exists q'. split; [done|apply number_le_refl].
  - rewrite run_snoc. destruct IH as (Hp & Hi & Hg).
    destruct (perform_bests (run calls self) c) as (Hp' & Hi' & Hg').
    split; [|split].
    + intros k q' Hk. destruct (Hp' k q' Hk) as (q1 & Hq1 & H1).
      destruct (Hp k q1 Hq1) as (q & Hq & H).
      exists q. split; [done|]. by eapply number_le_trans.
    + by eapply number_le_trans.
    + by eapply number_le_trans.
Qed.

End Coordinator.

(** ** Rounds, bests and velocities of the coordinator *)

Section CoordinatorClaims.
Import ParticleSwarmOptimization Trace.

Lemma init_particles shuffle hp n0 :
  particles (__init__ shuffle hp n0) =
  (fun k => Particle.__init__ (shuffle k) n0)
    <$> seq 0 (Z.to_nat (Param.num_particles hp)).
Proof. reflexivity. Qed.

Lemma notifications_snoc calls c :
  notifications (calls ++ [c]) =
  (notifications calls + (if is_notification c then 1 else 0))%nat.
Proof. induction calls as [|c' calls IH]; simpl; lia. Qed.

(** The invariant behind C2: the velocities are empty and the positions
    are those of the construction. *)
Lemma run_keeps_particles shuffle hp n0 calls :
  let N := Z.to_nat (Param.num_particles hp) in
  let self := run calls (__init__ shuffle hp n0) in
  Particle.v <$> particles self = replicate N PermutationList.__init__ /\
  Particle.x <$> particles self =
    (fun k => Sequence.__init__ (shuffle k) n0) <$> seq 0 N.
Proof.
  intros N. induction calls as [|c calls IH] using rev_ind.
  - unfold run. cbn [fold_left].
    rewrite init_particles, <- !list_fmap_compose. fold N. split.
    + clear. generalize 0%nat. induction N as [|N IH]; intros s; [done|].
      simpl. f_equal. apply IH.
    + done.
  - rewrite run_snoc. simpl in *. destruct IH as [Hv Hx].
    set (self := run calls _) in *.
    destruct c as [|value]; [done|]. simpl.
    destruct (particles self !! i self) as [p|] eqn:Hp;
      [|by rewrite notify_evaluation_raises].
    destruct (notify_evaluation_spec value self p Hp)
      as (_ & _ & _ & _ & Hlen & Hps).
    split.
    + rewrite <- Hv. apply fmap_eq_lookup; [done|].
      intros k q' Hk. destruct (Hps k q' Hk) as (q & Hq & Hvq & _).
      by exists q.
    + rewrite <- Hx. apply fmap_eq_lookup; [done|].
      intros k q' Hk. destruct (Hps k q' Hk) as (q & Hq & _ & _ & Hxq).
      exists q. split; [done|].
      destruct Hxq as [Hxq|[_ Hxq]]; [done|].
      assert (Hvq : Particle.v q = PermutationList.__init__).
      { assert (H : (Particle.v <$> particles self) !! k = Some (Particle.v q))
          by (by rewrite list_lookup_fmap, Hq).
        rewrite Hv in H. by apply lookup_replicate in H as [-> _]. }
      rewrite Hvq, add_empty in Hxq. by injection Hxq.
Qed.

(** C2. From the construction on and through every sequence of
    [get_position_to_evaluate] and [notify_evaluation] calls, the
    velocity of every particle is the empty delta, and the position list
    of the [k]-th particle is the permutation its constructor shuffled;
    the generation advances change neither. *)
Theorem velocity_stays_empty shuffle hp n0 calls :
  let N := Z.to_nat (Param.num_particles hp) in
  let self := run calls (__init__ shuffle hp n0) in
  Particle.v <$> particles self = replicate N PermutationList.__init__ /\
  (fun p => Sequence.list_ (Particle.x p)) <$> particles self =
    (fun k => shuffle k (range_1 n0)) <$> seq 0 N.
Proof.
  intros N self.
  destruct (run_keeps_particles shuffle hp n0 calls) as [Hv Hx].
  split; [done|].
  change (fun p => Sequence.list_ (Particle.x p))
    with (Sequence.list_ ∘ Particle.x).
  rewrite list_fmap_compose. fold self in Hx. rewrite Hx.
  by rewrite <- list_fmap_compose.
Qed.

(** The cursor and the generation count along the first round. *)
Lemma first_round shuffle hp n0 calls :
  let N := Z.to_nat (Param.num_particles hp) in
  let self := run calls (__init__ shuffle hp n0) in
  (notifications calls <= N)%nat ->
  length (particles self) = N /\
  (if decide (notifications calls < N)%nat
   then i self = notifications calls /\ generations self = 0%nat
   else i self = 0%nat /\ generations self = (if decide (N = 0%nat) then 0 else 1)%nat).
Proof.
  intros N. induction calls as [|c calls IH] using rev_ind; intros self Hn.
  - subst self. simpl. rewrite length_fmap, length_seq. split; [done|].
    fold N. destruct (decide (0 < N)%nat); [done|].
    rewrite decide_True by lia. done.
  - subst self. rewrite run_snoc. rewrite notifications_snoc in *.
    simpl in IH. set (self := run calls _) in *.
    destruct c as [|value]; simpl in *.
    + rewrite Nat.add_0_r in *. by apply IH.
    + destruct IH as [Hlen IH]; [lia|].
      rewrite decide_True in IH by lia. destruct IH as [Hi Hg].
      assert (Hlt : (i self < length (particles self))%nat) by lia.
      destruct (lookup_lt_is_Some_2 _ _ Hlt) as [p Hp].
      destruct (notify_evaluation_spec value self p Hp)
        as (_ & _ & Hi' & Hg' & Hlen' & _).
      split; [lia|]. rewrite Hi', Hg', Hi, Hg, Hlen.
      destruct (decide (notifications calls + 1 < N)%nat).
      * rewrite bool_decide_eq_false_2 by lia. split; lia.
      * rewrite bool_decide_eq_true_2 by lia.
        rewrite decide_False by lia. done.
Qed.

(** C6. On a freshly constructed coordinator, whose swarm has at least
    one particle: after exactly [num_particles] notifications the cursor
    is 0 again, on the first particle, and [advance_generation] has run
    exactly once; and not before: while fewer notifications have been
    made the cursor counts them and no generation has advanced. Calls of
    [get_position_to_evaluate] between the notifications change
    nothing. *)
Theorem round_cycling shuffle hp n0 calls :
  1 <= Param.num_particles hp ->
  let N := Z.to_nat (Param.num_particles hp) in
  let self := run calls (__init__ shuffle hp n0) in
  ((notifications calls < N)%nat ->
     i self = notifications calls /\ generations self = 0%nat) /\
  (notifications calls = N -> i self = 0%nat /\ generations self = 1%nat).
Proof.
  intros HN N self. split; intros Hn.
  - destruct (first_round shuffle hp n0 calls) as [_ H]; [fold N; lia|].
    fold N in H. rewrite decide_True in H by done. done.
  - destruct (first_round shuffle hp n0 calls) as [_ H]; [fold N; lia|].
    fold N in H. rewrite decide_False in H by lia.
    rewrite decide_False in H by lia. done.
Qed.

Lemma round_cycling_witness :
  1 <= Param.num_particles (hyperparams 3) /\
  let self := run [NotifyEvaluation (Int 4); GetPositionToEvaluate;
                   NotifyEvaluation (Int 2); NotifyEvaluation (Int 7)]
                  (__init__ example_shuffle (hyperparams 3) 8) in
  i self = 0%nat /\ generations self = 1%nat.
Proof.
  split; [simpl; lia|].
  apply (round_cycling example_shuffle (hyperparams 3) 8
           [NotifyEvaluation (Int 4); GetPositionToEvaluate;
            NotifyEvaluation (Int 2); NotifyEvaluation (Int 7)]);
    [simpl; lia|reflexivity].
Defined.

(** C7 (as amended). The first notification on a fresh coordinator,
    with a finite value, sets the personal best of the first particle
    and the iteration best to the position of that particle and the
    value. It sets the global best to them too when the swarm has one
    particle, the notification closing the round; with more particles
    the global best is still [None] and [inf] after the call. *)
Theorem first_evaluation shuffle hp n0 z :
  1 <= Param.num_particles hp ->
  let self := __init__ shuffle hp n0 in
  let self' := (notify_evaluation (Int z) self).2 in
  let x0 := Sequence.__init__ (shuffle 0%nat) n0 in
  (exists p', particles self' !! 0%nat = Some p' /\
     Particle.best p' = x0 /\ Particle.best_value p' = Int z) /\
  best_iteration self' = Some x0 /\
  best_iteration_value self' = Int z /\
  (Param.num_particles hp = 1 ->
     best_global self' = Some x0 /\ best_global_value self' = Int z) /\
  (1 < Param.num_particles hp ->
     best_global self' = None /\ best_global_value self' = Inf).
Proof.
  intros HN self self' x0.
  set (p0 := Particle.__init__ (shuffle 0%nat) n0).
  assert (Hlen : length (particles self) = Z.to_nat (Param.num_particles hp)).
  { unfold self. by rewrite init_particles, length_fmap, length_seq. }
  assert (Hp : particles self !! i self = Some p0).
  { unfold self. rewrite init_particles, list_lookup_fmap.
    change (i (__init__ shuffle hp n0)) with 0%nat.
    rewrite lookup_seq_lt by lia. done. }
  destruct (notify_evaluation_spec (Int z) self p0 Hp)
    as (Hbi & Hbg & _ & _ & Hlen' & Hps).
  fold self' in Hbi, Hbg, Hlen', Hps.
  change (best_iteration_value self) with Inf in Hbi.
  change (best_global_value self) with Inf in Hbg.
  change (best_global self) with (@None Sequence.t) in Hbg.
  change (i self) with 0%nat in *.
  change (Particle.x p0) with x0 in Hbi.
  cbn [number_ltb] in Hbi. injection Hbi as Hbi Hbiv.
  rewrite Hbiv, Hbi, Hlen in Hbg. cbn [number_ltb] in Hbg.
  rewrite andb_true_r in Hbg.
  split; [|split; [done|split; [done|split]]].
  - destruct (lookup_lt_is_Some_2 (particles self') 0) as [p' Hp']; [lia|].
    exists p'. split; [done|].
    destruct (Hps 0%nat p' Hp') as (q & Hq & _ & Hb & _).
    rewrite Hp in Hq. injection Hq as <-.
    simpl in Hb. by injection Hb.
  - intros H1. rewrite bool_decide_eq_true_2 in Hbg by lia. by injection Hbg.
  - intros H1. rewrite bool_decide_eq_false_2 in Hbg by lia. by injection Hbg.
Qed.

Lemma first_evaluation_witness :
  1 <= Param.num_particles (hyperparams 1) /\
  let self' := (notify_evaluation (Int 3)
                  (__init__ example_shuffle (hyperparams 1) 4)).2 in
  best_iteration self' = Some (Sequence.mk [1; 2; 3; 4]) /\
  best_global self' = Some (Sequence.mk [1; 2; 3; 4]) /\
  best_global_value self' = Int 3.
Proof.
  split; [simpl; lia|].
  destruct (first_evaluation example_shuffle (hyperparams 1) 4 3)
    as (_ & Hbi & _ & Hbg & _); [simpl; lia|].
  destruct Hbg as [Hbg Hbgv]; [reflexivity|].
  split; [exact Hbi|]. split; [exact Hbg|exact Hbgv].
Defined.

(** C7, counterexample: with two particles the first notification
    leaves the global best unset. *)
Lemma first_evaluation_global_unset :
  let self := __init__ example_shuffle (hyperparams 2) 4 in
  let self' := (notify_evaluation (Int 3) self).2 in
  Particle.x <$> particles self !! 0%nat = Some (Sequence.mk [1; 2; 3; 4]) /\
  ~ (best_global self' = Some (Sequence.mk [1; 2; 3; 4]) /\
     best_global_value self' = Int 3).
Proof. split; [reflexivity|]. intros [H _]. discriminate H. Qed.

(** C5 (as amended). Along every sequence of calls the personal best
    value of each particle, the iteration best value and the global best
    value never increase. In one notification each of these bests is
    either replaced by a strictly smaller value or kept, position and
    value. A reported value equal to the personal best of the particle
    under the cursor leaves that best as it is, and one equal to the
    iteration best leaves the iteration best as it is. The global best is
    compared with the iteration best: it is kept unless the iteration
    best, after the report, is strictly smaller. *)
Theorem bests_never_increase :
  (forall calls self,
     let self' := run calls self in
     (forall k q', particles self' !! k = Some q' ->
        exists q, particles self !! k = Some q /\
          number_le (Particle.best_value q') (Particle.best_value q)) /\
     number_le (best_iteration_value self') (best_iteration_value self) /\
     number_le (best_global_value self') (best_global_value self)) /\
  (forall value self,
     let self' := (notify_evaluation value self).2 in
     (forall k q', particles self' !! k = Some q' ->
        exists q, particles self !! k = Some q /\
          improved_or_kept (Particle.best q, Particle.best_value q)
                           (Particle.best q', Particle.best_value q')) /\
     improved_or_kept (best_iteration self, best_iteration_value self)
                      (best_iteration self', best_iteration_value self') /\
     improved_or_kept (best_global self, best_global_value self)
                      (best_global self', best_global_value self') /\
     (forall p, particles self !! i self = Some p ->
        value = Particle.best_value p ->
        exists p', particles self' !! i self = Some p' /\
          Particle.best p' = Particle.best p /\
          Particle.best_value p' = Particle.best_value p) /\
     (value = best_iteration_value self ->
        best_iteration self' = best_iteration self /\
        best_iteration_value self' = best_iteration_value self) /\
     (number_ltb (best_iteration_value self') (best_global_value self) = false ->
        best_global self' = best_global self /\
        best_global_value self' = best_global_value self)).
Proof.
  split; [apply run_bests|].
  intros value self self'.
  destruct (notify_evaluation_bests value self) as (Hp & Hi & Hg).
  fold self' in Hp, Hi, Hg.
  split; [done|]. split; [done|]. split; [done|].
  destruct (particles self !! i self) as [p|] eqn:Hlk.
  2: { subst self'. rewrite notify_evaluation_raises by done.
       split; [done|]. split; done. }
  destruct (notify_evaluation_spec value self p Hlk)
    as (Hbi & Hbg & _ & _ & Hlen & Hps).
  fold self' in Hbi, Hbg, Hlen, Hps.
  split; [|split].
  - intros p1 [= <-] ->.
    destruct (lookup_lt_is_Some_2 (particles self') (i self)) as [p' Hp'].
    { rewrite Hlen. by eapply lookup_lt_Some. }
    exists p'. split; [done|].
    destruct (Hps _ _ Hp') as (q & Hq & _ & Hb & _).
    rewrite Hlk in Hq. injection Hq as <-.
    rewrite number_ltb_irrefl, andb_false_r in Hb. by injection Hb.
  - intros ->. rewrite number_ltb_irrefl in Hbi. by injection Hbi.
  - intros Hnlt. rewrite Hnlt, andb_false_r in Hbg. by injection Hbg.
Qed.

(** C5, counterexample: two particles, first round reported 9 and 5,
    so the global best is 5 at the second particle; in the second round
    the first particle reports 3 and the second reports 5 again. This
    report equals the stored global best, and the call replaces the
    global best, position and value, by the iteration best. *)
Lemma tie_with_global_best_replaced :
  let self := run [NotifyEvaluation (Int 9); NotifyEvaluation (Int 5);
                   NotifyEvaluation (Int 3)]
                  (__init__ example_shuffle (hyperparams 2) 2) in
  let self' := (notify_evaluation (Int 5) self).2 in
  (best_global self, best_global_value self)
    = (Some (Sequence.mk [2; 1]), Int 5) /\
  (best_global self', best_global_value self')
    = (Some (Sequence.mk [1; 2]), Int 3) /\
  ~ (best_global self' = best_global self /\
     best_global_value self' = best_global_value self).
Proof.
  split; [reflexivity|]. split; [reflexivity|].
  intros [_ H]. discriminate H.
Qed.

(** C4, the code at the failing input: one particle, so each
    notification is a full round. The first round reports 0, the second
    reports 5; after the second round [best_iteration_value] is still
    the 0 of the first. *)
Theorem best_iteration_value_not_reset :
  let self := run [NotifyEvaluation (Int 0); NotifyEvaluation (Int 5)]
                  (__init__ example_shuffle (hyperparams 1) 4) in
  generations self = 2%nat /\
  i self = 0%nat /\
  best_iteration_value self = Int 0.
Proof. repeat split; reflexivity. Qed.

End CoordinatorClaims.

(** ** Exact cases of the float arithmetic *)

Section FloatFacts.

Lemma digits2_pos_size p : digits2_pos p = Pos.size p.
Proof. induction p as [p IH|p IH|]; simpl; by rewrite ?IH. Qed.

Lemma digits2_pos_iter p k :
  digits2_pos (Pos.iter xO p k) = (digits2_pos p + k)%positive.
Proof.
  induction k as [|k IH] using Pos.peano_ind.
  - simpl. lia.
  - rewrite Pos.iter_succ. simpl. rewrite IH. lia.
Qed.

Lemma Zpos_iter_xO p k : Zpos (Pos.iter xO p k) = Zpos p * 2 ^ Zpos k.
Proof.
  induction k as [|k IH] using Pos.peano_ind.
  - simpl. lia.
  - rewrite Pos.iter_succ, Pos2Z.inj_succ, Z.pow_succ_r by lia.
    rewrite Pos2Z.inj_xO, IH. lia.
Qed.

(** Below 2^53 a positive has at most 53 binary digits. *)
Lemma digits2_pos_le_53 p : Zpos p < 2 ^ 53 -> Zpos (digits2_pos p) <= 53.
Proof.
  intros Hp. rewrite digits2_pos_size.
  pose proof (Pos.size_le p) as Hle.
  destruct (Z.le_gt_cases (Zpos (Pos.size p)) 53) as [|Hgt]; [done|exfalso].
  assert (H54 : 2 ^ 54 <= 2 ^ Zpos (Pos.size p))
    by (apply Z.pow_le_mono_r; lia).
  assert (Hz : 2 ^ Zpos (Pos.size p) <= 2 * Zpos p).
  { change (2 * Zpos p) with (Zpos p~0).
    rewrite <- Pos2Z.inj_pow. apply Pos2Z.pos_le_pos. exact Hle. }
  change (2 ^ 54) with (2 * 2 ^ 53) in H54. lia.
Qed.

(** A mantissa of 53 digits with an exponent in range is kept as it is
    by the rounding that ends every operation. *)
Lemma binary_round_aux_canonical m e :
  digits2_pos m = 53%positive -> -1074 <= e <= 971 ->
  binary_round_aux 53 1024 false (Zpos m) e loc_Exact = S754_finite false m e.
Proof.
  intros Hd He. unfold binary_round_aux, shr_fexp, Zdigits2.
  rewrite Hd.
  assert (H0 : fexp 53 1024 (53 + e) - e = 0).
  { unfold fexp, emin. lia. }
  rewrite H0. cbn [shr_record_of_loc shr shr_m loc_of_shr_record round_nearest_even].
  rewrite Hd, H0. cbn [shr_record_of_loc shr shr_m].
  rewrite (proj2 (Z.leb_le e (1024 - 53))) by lia. done.
Qed.

(** [float(z)] for 0 < z < 2^53: the mantissa is z shifted to 53
    digits, nothing is rounded off. *)
Lemma float_of_int_small p :
  Zpos p < 2 ^ 53 ->
  exists m e,
    float_of_int (Zpos p) = ret (S754_finite false m e) /\
    digits2_pos m = 53%positive /\ -52 <= e <= 0 /\
    Zpos m = Zpos p * 2 ^ (- e).
Proof.
  intros Hp. apply digits2_pos_le_53 in Hp.
  unfold float_of_int, binary_normalize, binary_round, shl_align.
  assert (Hf : fexp 53 1024 (Zpos (digits2_pos p) + 0)
               = Zpos (digits2_pos p) - 53).
  { unfold fexp, emin. lia. }
  rewrite Hf.
  destruct (Zpos (digits2_pos p) - 53 - 0) as [|k|k] eqn:Hk; [|lia|].
  - exists p, 0. rewrite binary_round_aux_canonical by lia.
    split; [done|]. split; [lia|]. split; [lia|]. simpl. lia.
  - exists (Pos.iter xO p k), (Zpos (digits2_pos p) - 53).
    rewrite binary_round_aux_canonical.
    + split; [done|]. split; [rewrite digits2_pos_iter; lia|].
      split; [lia|]. rewrite Zpos_iter_xO. do 2 f_equal. lia.
    + rewrite digits2_pos_iter. lia.
    + lia.
Qed.

Lemma iter_pos_iter {A : Type} (f : A -> A) k x :
  SpecFloat.iter_pos f k x = Pos.iter f x k.
Proof.
  revert x. induction k as [k IH|k IH|]; intros x; simpl.
  - rewrite !IH. by rewrite <- !Pos.iter_swap.
  - by rewrite !IH.
  - done.
Qed.

(** Shifting right what was shifted left loses nothing. *)
Lemma shr_1_iter m k :
  SpecFloat.iter_pos shr_1 k (Build_shr_record (Zpos (Pos.iter xO m k)) false false)
  = Build_shr_record (Zpos m) false false.
Proof.
  rewrite iter_pos_iter.
  induction k as [|k IH] using Pos.peano_ind; [done|].
  rewrite (Pos.iter_succ k _ xO), (Pos.iter_succ_r k _ shr_1). exact IH.
Qed.

(** [1.0 * f = f] on such floats. *)
Lemma float_mul_1_l m e :
  digits2_pos m = 53%positive -> -52 <= e <= 0 ->
  float_mul float_1 (S754_finite false m e) = S754_finite false m e.
Proof.
  intros Hd He. unfold float_mul, float_1, SFmul. cbn [xorb].
  replace (4503599627370496 * m)%positive with (Pos.iter xO m 52).
  2: { apply Pos2Z.inj. rewrite Zpos_iter_xO, Pos2Z.inj_mul. lia. }
  unfold binary_round_aux, shr_fexp, Zdigits2.
  rewrite digits2_pos_iter, Hd.
  assert (H52 : fexp 53 1024 (Zpos (53 + 52) + (-52 + e)) - (-52 + e) = 52).
  { unfold fexp, emin. lia. }
  rewrite H52. cbn [shr_record_of_loc shr].
  rewrite shr_1_iter.
  cbn [shr_m loc_of_shr_record round_nearest_even]. rewrite Hd.
  assert (H0 : fexp 53 1024 (53 + (-52 + e + 52)) - (-52 + e + 52) = 0).
  { unfold fexp, emin. lia. }
  rewrite H0. cbn [shr_record_of_loc shr shr_m].
  rewrite (proj2 (Z.leb_le _ (1024 - 53))) by lia.
  f_equal. lia.
Qed.

Lemma float_mul_0_l m e :
  float_mul float_0 (S754_finite false m e) = S754_zero false.
Proof. reflexivity. Qed.

Lemma round_exact m e p :
  -52 <= e <= 0 -> Zpos m = Zpos p * 2 ^ (- e) ->
  round (S754_finite false m e) = ret (Zpos p).
Proof.
  intros He Hm. unfold round, round_half_even. cbn [cond_Zopp]. f_equal.
  destruct (Z.leb_spec 0 e) as [H0|H0].
  - assert (e = 0) as -> by lia. simpl in Hm. lia.
  - rewrite Hm. assert (Hpow : 0 < 2 ^ (- e)) by (apply Z.pow_pos_nonneg; lia).
    rewrite Z.div_mul by lia. rewrite Z.mod_mul by lia.
    rewrite Z.mul_0_r. rewrite (proj2 (Z.compare_lt_iff 0 (2 ^ (- e)))) by lia.
    done.
Qed.

Lemma slice_to_0 {A : Type} (l : list A) : slice_to l 0 = [].
Proof.
  unfold slice_to. cbn [Z.ltb Z.compare].
  rewrite Z.min_l by lia. done.
Qed.

Lemma slice_to_prefix {A : Type} (l : list A) k :
  0 <= k <= Z.of_nat (length l) -> slice_to l k = take (Z.to_nat k) l.
Proof.
  intros Hk. unfold slice_to.
  rewrite (proj2 (Z.ltb_ge k 0)) by lia. by rewrite Z.min_l by lia.
Qed.

Lemma slice_to_length {A : Type} (l : list A) :
  slice_to l (Z.of_nat (length l)) = l.
Proof.
  rewrite slice_to_prefix by lia. rewrite Nat2Z.id. apply firstn_all.
Qed.

End FloatFacts.

(** ** Scaling a delta *)

Section Scaling.
Import PermutationList.

Lemma rmul_float_in_range (self : t) (r : float) :
  SFltb r float_0 = false -> SFltb float_1 r = false ->
  __rmul__ self (PyFloat r) =
    (len ← float_of_int (Z.of_nat (length (keys self)));
     stop ← round (float_mul r len);
     ret (slice_to (keys self) stop), self).
Proof. intros H0 H1. unfold __rmul__. by rewrite H0, H1. Qed.

Lemma rmul_float_0 (self : t) :
  Z.of_nat (length (keys self)) < 2 ^ 53 ->
  __rmul__ self (PyFloat float_0) = (ret [], self).
Proof.
  intros Hlen. rewrite rmul_float_in_range by reflexivity. f_equal.
  destruct (Z.of_nat (length (keys self))) as [|p|p] eqn:E; [| |lia].
  - cbn. by rewrite slice_to_0.
  - destruct (float_of_int_small p Hlen) as (m & e & -> & _).
    cbn. by rewrite slice_to_0.
Qed.

Lemma rmul_float_1 (self : t) :
  Z.of_nat (length (keys self)) < 2 ^ 53 ->
  __rmul__ self (PyFloat float_1) = (ret (keys self), self).
Proof.
  intros Hlen. rewrite rmul_float_in_range by reflexivity. f_equal.
  destruct (Z.of_nat (length (keys self))) as [|p|p] eqn:E; [| |lia].
  - cbn. rewrite slice_to_0. destruct (keys self); [done|discriminate E].
  - destruct (float_of_int_small p Hlen) as (m & e & -> & Hd & He & Hm).
    cbn [mbind result_bind ret]. rewrite float_mul_1_l by done.
    rewrite (round_exact m e p) by done. cbn [mbind result_bind ret].
    rewrite <- E. by rewrite slice_to_length.
Qed.

(** C8. Scaling by an int [k] with [0 <= k <= len(d)] returns the first
    [k] transpositions of [d], in order, and exactly [k] of them, through
    [__rmul__] and through [__mul__]; the delta is left as it was. For a
    delta of fewer than 2^53 transpositions (beyond which its length is
    not a double), scaling by [0.0] returns the empty list and scaling
    by [1.0] returns all the transpositions of [d] in order. *)
Theorem scale_is_a_prefix (self : t) :
  (forall k : Z, 0 <= k <= Z.of_nat (length (keys self)) ->
     __rmul__ self (PyInt k) = (ret (take (Z.to_nat k) (keys self)), self) /\
     __mul__ self (PyInt k) = (ret (take (Z.to_nat k) (keys self)), self) /\
     length (take (Z.to_nat k) (keys self)) = Z.to_nat k) /\
  (Z.of_nat (length (keys self)) < 2 ^ 53 ->
     __rmul__ self (PyFloat float_0) = (ret [], self) /\
     __mul__ self (PyFloat float_0) = (ret [], self) /\
     __rmul__ self (PyFloat float_1) = (ret (keys self), self) /\
     __mul__ self (PyFloat float_1) = (ret (keys self), self)).
Proof.
  split.
  - intros k Hk. unfold __mul__, __rmul__.
    rewrite slice_to_prefix by done.
    split; [done|]. split; [done|]. rewrite length_take. lia.
  - intros Hlen. unfold __mul__.
    rewrite rmul_float_0, rmul_float_1 by done. done.
Qed.

(** C9. Scaling by a float [r] with [r < 0.0] or [r > 1.0] raises
    [ValueError], through [__rmul__] and through [__mul__], whatever the
    delta; nothing is returned in its place, and the delta is left with
    the transpositions it had. *)
Theorem scale_out_of_range (self : t) (r : float) :
  SFltb r float_0 = true \/ SFltb float_1 r = true ->
  __rmul__ self (PyFloat r) = (raise ValueError, self) /\
  __mul__ self (PyFloat r) = (raise ValueError, self) /\
  keys (__rmul__ self (PyFloat r)).2 = keys self.
Proof.
  intros Hr. unfold __mul__, __rmul__.
  assert (H : SFltb r float_0 || SFltb float_1 r = true).
  { destruct Hr as [-> | ->]; [done|by rewrite orb_true_r]. }
  by rewrite H.
Qed.

Lemma scale_is_a_prefix_witness :
  0 <= 1 <= Z.of_nat (length (keys example_delta)) /\
  Z.of_nat (length (keys example_delta)) < 2 ^ 53 /\
  __rmul__ example_delta (PyInt 1) = (ret [(0, 1)%nat], example_delta) /\
  __rmul__ example_delta (PyFloat float_0) = (ret [], example_delta) /\
  __rmul__ example_delta (PyFloat float_1)
    = (ret [(0, 1)%nat; (1, 2)%nat], example_delta).
Proof.
  assert (H1 : 0 <= 1 <= Z.of_nat (length (keys example_delta)))
    by (simpl; lia).
  assert (H2 : Z.of_nat (length (keys example_delta)) < 2 ^ 53)
    by (simpl; lia).
  split; [exact H1|]. split; [exact H2|].
  destruct (scale_is_a_prefix example_delta) as [Hint Hfloat].
  destruct (Hint 1 H1) as (Hk & _).
  destruct (Hfloat H2) as (H0 & _ & Hall & _).
  split; [exact Hk|]. split; [exact H0|exact Hall].
Defined.

Lemma scale_out_of_range_witness :
  SFltb float_1 (decimal 15 1) = true /\
  __rmul__ example_delta (PyFloat (decimal 15 1))
    = (raise ValueError, example_delta).
Proof.
  assert (H : SFltb float_1 (decimal 15 1) = true) by (vm_compute; reflexivity).
  split; [exact H|].
  exact (proj1 (scale_out_of_range example_delta (decimal 15 1) (or_intror H))).
Defined.

End Scaling.

(** ** The permutation algebra: difference and application *)

Section Difference.
Import Sequence.

Lemma od_update_keys_fresh {V : Type} (d : OrderedDict transposition V) k val :
  k ∉ od_keys d -> od_keys (od_update d k val) = od_keys d ++ [k].
Proof.
  unfold od_keys. induction d as [|[k' v'] d IH]; intros Hk; [done|].
  cbn [od_update]. rewrite fmap_cons, not_elem_of_cons in Hk.
  destruct Hk as [Hne Hk]. simpl in Hne.
  rewrite decide_False by done. rewrite !fmap_cons. simpl.
  f_equal. by apply IH.
Qed.

Lemma keys_add_fresh p v :
  p ∉ PermutationList.keys v ->
  PermutationList.keys (PermutationList.add p v) = PermutationList.keys v ++ [p].
Proof. apply od_update_keys_fresh. Qed.

(** The inner [for]: no exception on indices of the list, and the
    index it returns holds the element searched. *)
Lemma search_spec w s js :
  Forall (fun j => (j < length w)%nat) js ->
  exists r, search w s js = ret r /\
    match r with
    | Some j => j ∈ js /\ w !! j = Some s
    | None => forall j, j ∈ js -> w !! j ≠ Some s
    end.
Proof.
  induction 1 as [|j js Hj _ IH]; cbn [search].
  - exists None. split; [done|]. intros j Hj. by apply elem_of_nil in Hj.
  - destruct (lookup_lt_is_Some_2 _ _ Hj) as [oj Hoj].
    unfold getitem. rewrite Hoj. cbn [mbind result_bind ret].
    case_bool_decide as Heq.
    + exists (Some j). subst oj. split; [done|]. split; [by left|done].
    + destruct IH as (r & -> & Hr). exists r. split; [done|].
      destruct r as [j'|].
      * destruct Hr. split; [by right|done].
      * intros j' [->|Hj']%elem_of_cons; [congruence|by apply Hr].
Qed.

Lemma matches_le a w : (matches a w <= length a)%nat.
Proof.
  revert w. induction a as [|x a IH]; intros [|y w]; simpl; try lia.
  specialize (IH w). case_decide; lia.
Qed.

Lemma matches_refl a : matches a a = length a.
Proof. induction a as [|x a IH]; simpl; [done|]. rewrite decide_True by done. lia. Qed.

Lemma matches_full a w :
  length a = length w -> matches a w = length a -> a = w.
Proof.
  revert w. induction a as [|x a IH]; intros [|y w]; simpl; try done.
  intros [= Hlen] Hm. pose proof (matches_le a w).
  case_decide; [|lia]. subst y. f_equal. apply IH; [done|lia].
Qed.

(** Writing [y] at position [k] of [w]: the count of matches loses the
    old match at [k], if any, and gains the new one, if any. *)
Lemma matches_insert a w k y :
  (k < length w)%nat -> (k < length a)%nat ->
  (matches a (<[k := y]> w) + (if decide (a !! k = w !! k) then 1 else 0)
   = matches a w + (if decide (a !! k = Some y) then 1 else 0))%nat.
Proof.
  revert w k. induction a as [|x a IH]; intros [|z w] [|k] Hw Ha;
    simpl in *; try lia.
  - repeat case_decide; simplify_eq; lia.
  - specialize (IH w k ltac:(lia) ltac:(lia)). lia.
Qed.

(** The first position at which two different lists of one length differ. *)
Lemma first_mismatch (a w : list Z) :
  length a = length w -> a ≠ w ->
  exists m, (m < length a)%nat /\ a !! m ≠ w !! m /\
    forall j, (j < m)%nat -> a !! j = w !! j.
Proof.
  revert w. induction a as [|x a IH]; intros [|y w]; simpl; try done.
  intros [= Hlen] Hne. destruct (decide (x = y)) as [->|Hxy].
  - destruct (IH w Hlen) as (m & Hm & Hd & Hlt); [congruence|].
    exists (S m). split; [lia|]. split; [done|].
    intros [|j] Hj; [done|]. simpl. apply Hlt. lia.
  - exists 0%nat. split; [lia|]. split; [simpl; congruence|]. lia.
Qed.

Lemma add_loop_app l ps qs :
  add_loop l (ps ++ qs) = (l' ← add_loop l ps; add_loop l' qs).
Proof.
  revert l. induction ps as [|[i j] ps IH]; intros l; [done|].
  cbn [app add_loop]. unfold getitem.
  destruct (l !! j); [|done]. destruct (l !! i); [|done].
  cbn [mbind result_bind ret]. apply IH.
Qed.

Section Loop.
Variable a : list Z.
Hypothesis a_NoDup : NoDup a.

(** One turn of the loop on a working copy that is a permutation of
    [self.list]: no exception; either nothing changes, or a swap with
    a later position is recorded and the copy agrees with [self.list]
    at strictly more positions. *)
Lemma sub_body_progress i w v :
  w ≡ₚ a -> (i < length a)%nat ->
  exists w' v', sub_body a i (w, v) = ret (w', v') /\
    ((w' = w /\ v' = v) \/
     exists j si oi, (i < j)%nat /\
       a !! i = Some si /\ w !! i = Some oi /\ w !! j = Some si /\
       si ≠ oi /\
       w' = <[i := si]> (<[j := oi]> w) /\
       v' = PermutationList.add (i, j) v /\
       (matches a w < matches a w')%nat).
Proof.
  intros Hperm Hi. pose proof (Permutation_length Hperm) as Hlen.
  destruct (lookup_lt_is_Some_2 a i Hi) as [si Hsi].
  destruct (lookup_lt_is_Some_2 w i ltac:(lia)) as [oi Hoi].
  unfold sub_body, getitem. rewrite Hsi, Hoi. cbn [mbind result_bind ret].
  case_bool_decide as Hne; [|by eauto 10].
  destruct (search_spec w si (seq (S i) (length a - S i))) as (r & -> & Hr).
  { apply list.Forall_forall. intros j Hj%elem_of_seq. lia. }
  cbn [mbind result_bind ret]. destruct r as [j|]; [|by eauto 10].
  destruct Hr as [Hj%elem_of_seq Hwj].
  eexists _, _. split; [done|]. right. exists j, si, oi.
  repeat (split; [done || lia|]).
  (* position [j] did not match before the swap *)
  assert (Haj : a !! j ≠ w !! j).
  { rewrite Hwj. intros Haj.
    pose proof (NoDup_lookup _ _ _ _ a_NoDup Hsi Haj). lia. }
  pose proof (matches_insert a w j oi ltac:(lia) ltac:(lia)) as H1.
  rewrite decide_False in H1 by done.
  pose proof (matches_insert a (<[j := oi]> w) i si
                ltac:(rewrite length_insert; lia) ltac:(lia)) as H2.
  rewrite list_lookup_insert_ne in H2 by lia.
  rewrite Hsi, Hoi in H2.
  rewrite decide_False in H2 by congruence.
  rewrite decide_True in H2 by done.
  case_decide; lia.
Qed.

Variable b : list Z.
Hypothesis a_b : a ≡ₚ b.

Lemma sub_inv_init : sub_inv a b (b, PermutationList.__init__).
Proof.
  split; [done|]. split; [done|]. split; [|simpl; lia].
  intros i j Hij. by apply elem_of_nil in Hij.
Qed.

Lemma sub_body_inv i st :
  sub_inv a b st -> (i < length a)%nat ->
  exists st', sub_body a i st = ret st' /\ sub_inv a b st' /\
    (st' = st \/ (matches a st.1 < matches a st'.1)%nat).
Proof.
  destruct st as [w v]. intros (Hperm & Hadd & Hfix & Hcount) Hi.
  simpl in *.
  destruct (sub_body_progress i w v Hperm Hi)
    as (w' & v' & Hbody & [[-> ->]|Hswap]).
  { exists (w, v). split; [done|]. split; [|by left]. done. }
  destruct Hswap as (j & si & oi & Hij & Hsi & Hoi & Hwj & Hne & -> & -> & Hm).
  exists (<[i:=si]> (<[j:=oi]> w), PermutationList.add (i, j) v).
  split; [done|]. split; [|by right].
  pose proof (Permutation_length Hperm) as Hlen.
  assert (Hjlt : (j < length w)%nat) by (by eapply lookup_lt_Some).
  assert (Hfresh : (i, j) ∉ PermutationList.keys v).
  { intros Hin. apply Hfix in Hin. congruence. }
  assert (Haj : a !! j ≠ w !! j).
  { rewrite Hwj. intros Haj.
    pose proof (NoDup_lookup _ _ _ _ a_NoDup Hsi Haj). lia. }
  unfold sub_inv. cbn [fst snd]. rewrite keys_add_fresh by done.
  split; [|split; [|split]].
  - etrans; [|exact Hperm]. by apply Permutation_insert_swap.
  - rewrite add_loop_app, Hadd. cbn [mbind result_bind ret add_loop].
    unfold getitem. rewrite Hwj, Hoi. done.
  - intros i' j' [Hin|Hin%list_elem_of_singleton]%elem_of_app.
    + pose proof (Hfix _ _ Hin) as Hi'.
      rewrite !list_lookup_insert_ne; [done|congruence|congruence].
    + injection Hin as -> ->.
      rewrite list_lookup_insert_eq by (rewrite length_insert; lia). done.
  - rewrite length_app. simpl. lia.
Qed.

(** Whenever the loop exits it returns a delta, and the delta applied
    to [other.list] gives [self.list]. *)
Lemma sub_loop_correct randrange fuel k st r :
  in_range randrange (length a) -> sub_inv a b st ->
  sub_loop fuel randrange k a st = Some r ->
  exists v, r = ret v /\
    add_loop b (PermutationList.keys v) = ret a /\
    (length (PermutationList.keys v) + matches a b <= length a)%nat.
Proof.
  intros Hrange. revert k st.
  induction fuel as [|fuel IH]; intros k st Hinv; cbn [sub_loop].
  - case_bool_decide as Hne; [done|]. intros [= <-].
    try apply dec_stable in Hne. destruct Hinv as (_ & Hadd & _ & Hc).
    exists st.2. rewrite Hne, matches_refl in *. done.
  - case_bool_decide as Hne.
    + case_bool_decide as Hempty.
      { exfalso. destruct Hinv as (Hperm & _).
        apply Permutation_length in Hperm.
        apply Hne. destruct a; [|done]. by destruct st.1. }
      destruct (sub_body_inv (randrange k) st Hinv (Hrange k))
        as (st' & -> & Hinv' & _).
      by apply IH.
    + intros [= <-]. try apply dec_stable in Hne.
      destruct Hinv as (_ & Hadd & _ & Hc).
      exists st.2. rewrite Hne, matches_refl in *. done.
Qed.

(** Drawing the first mismatching position always records a swap. *)
Lemma sub_body_first_mismatch m st :
  sub_inv a b st -> (m < length a)%nat ->
  a !! m ≠ st.1 !! m -> (forall j, (j < m)%nat -> a !! j = st.1 !! j) ->
  sub_body a m st ≠ ret st.
Proof.
  destruct st as [w v]. intros (Hperm & _) Hm Hd Hbefore. simpl in *.
  pose proof (Permutation_length Hperm) as Hlen.
  destruct (lookup_lt_is_Some_2 a m Hm) as [si Hsi].
  destruct (lookup_lt_is_Some_2 w m ltac:(lia)) as [oi Hoi].
  unfold sub_body, getitem. rewrite Hsi, Hoi. cbn [mbind result_bind ret].
  rewrite bool_decide_eq_true_2 by congruence.
  destruct (search_spec w si (seq (S m) (length a - S m))) as (r & -> & Hr).
  { apply list.Forall_forall. intros j Hj%elem_of_seq. lia. }
  cbn [mbind result_bind ret]. destruct r as [j|].
  - destruct Hr as [Hj%elem_of_seq Hwj]. intros [= Hw _].
    assert (Hlk : (<[m:=si]> (<[j:=oi]> w)) !! m = Some si).
    { apply list_lookup_insert_eq. rewrite length_insert. lia. }
    rewrite Hw in Hlk. congruence.
  - exfalso.
    (* [si] occurs in [w], and not at [m] or before it *)
    assert (Hin : si ∈ w).
    { rewrite Hperm. by eapply list_elem_of_lookup_2. }
    apply list_elem_of_lookup in Hin as [j Hj].
    assert (Hjlen : (j < length w)%nat) by (by eapply lookup_lt_Some).
    destruct (decide (m < j)%nat) as [Hgt|Hle].
    { apply (Hr j); [|done]. apply elem_of_seq. lia. }
    destruct (decide (j = m)) as [->|Hjm]; [congruence|].
    assert (Hjb : a !! j = Some si) by (rewrite Hbefore by lia; done).
    pose proof (NoDup_lookup _ _ _ _ a_NoDup Hsi Hjb). lia.
Qed.

(** On a fair sequence of draws the loop exits. *)
Lemma sub_loop_terminates randrange :
  in_range randrange (length a) -> fair randrange (length a) ->
  forall d st k, sub_inv a b st -> (length a - matches a st.1 <= d)%nat ->
    exists fuel v, sub_loop fuel randrange k a st = Some (ret v).
Proof.
  intros Hrange Hfair.
  induction d as [d IHd] using lt_wf_ind. intros st k Hinv Hd.
  destruct (decide (a = st.1)) as [Heq|Hne].
  { exists 0%nat, st.2. cbn [sub_loop].
    by rewrite bool_decide_eq_false_2 by (by intros ?). }
  pose proof (Permutation_length (proj1 Hinv)) as Hlen.
  destruct (first_mismatch a st.1 ltac:(done) Hne) as (m & Hm & Hdiff & Hbefore).
  destruct (Hfair k m Hm) as (k' & Hk' & Hdraw).
  assert (Hpos : length a ≠ 0%nat) by lia.
  (* induction on the number of draws until [m] is drawn *)
  remember (k' - k)%nat as g eqn:Hg.
  revert k Hk' Hg. induction g as [|g IHg]; intros k Hk' Hg.
  - assert (k = k') as -> by lia.
    destruct (sub_body_inv (randrange k') st Hinv (Hrange k'))
      as (st' & Hbody & Hinv' & [->|Hmore]).
    { exfalso. rewrite Hdraw in Hbody.
      by eapply sub_body_first_mismatch. }
    pose proof (matches_le a st'.1).
    destruct (IHd (length a - matches a st'.1)%nat ltac:(lia) st' (S k')
                Hinv' ltac:(lia)) as (fuel & v & Hloop).
    exists (S fuel), v. cbn [sub_loop].
    rewrite bool_decide_eq_true_2 by done.
    rewrite bool_decide_eq_false_2 by done.
    by rewrite Hbody.
  - destruct (sub_body_inv (randrange k) st Hinv (Hrange k))
      as (st' & Hbody & Hinv' & [->|Hmore]).
    + destruct (IHg (S k) ltac:(lia) ltac:(lia)) as (fuel & v & Hloop).
      exists (S fuel), v. cbn [sub_loop].
      rewrite bool_decide_eq_true_2 by done.
      rewrite bool_decide_eq_false_2 by done.
      by rewrite Hbody.
    + pose proof (matches_le a st'.1).
      destruct (IHd (length a - matches a st'.1)%nat ltac:(lia) st' (S k)
                  Hinv' ltac:(lia)) as (fuel & v & Hloop).
      exists (S fuel), v. cbn [sub_loop].
      rewrite bool_decide_eq_true_2 by done.
      rewrite bool_decide_eq_false_2 by done.
      by rewrite Hbody.
Qed.

End Loop.

Lemma add_obj (b : t) (v : PermutationList.t) :
  __add__ b (PermutationList.obj v) =
  (l ← add_loop (list_ b) (PermutationList.keys v); ret (mk l)).
Proof. by destruct v. Qed.

(** C1 (as amended). For [a] a list without repetition, [b] a
    permutation of it, and draws within range:
    - whenever the loop of [a - b] exits, it returns a delta which,
      applied to [b] transposition by transposition in recorded order,
      gives a sequence with the elements of [a], and which holds no more
      transpositions than the positions at which [b] differed from [a];
    - a turn of the loop raises nothing and either leaves the working
      copy and the delta as they are, or records a swap with a later
      position, after which the working copy matches [a] at strictly
      more positions;
    - the loop exits on every fair sequence of draws.
    It does not exit on every sequence of draws. *)
Theorem difference_applies (a b : t) (randrange : nat -> nat) :
  NoDup (list_ a) -> list_ a ≡ₚ list_ b ->
  in_range randrange (length (list_ a)) ->
  (forall fuel r, __sub__ fuel randrange a b = Some r ->
     exists v, r = ret v /\
       __add__ b (PermutationList.obj v) = ret a /\
       (length (PermutationList.keys v) + matches (list_ a) (list_ b)
        <= length (list_ a))%nat) /\
  (forall i w v, w ≡ₚ list_ a -> (i < length (list_ a))%nat ->
     exists w' v', sub_body (list_ a) i (w, v) = ret (w', v') /\
       ((w' = w /\ v' = v) \/
        exists j, (i < j)%nat /\ v' = PermutationList.add (i, j) v /\
          (matches (list_ a) w < matches (list_ a) w')%nat)) /\
  (fair randrange (length (list_ a)) ->
     exists fuel v, __sub__ fuel randrange a b = Some (ret v)).
Proof.
  intros Hnd Hperm Hrange. split; [|split].
  - intros fuel r Hsub.
    assert (Hinv : sub_inv (list_ a) (list_ b)
                     (list_ b, PermutationList.__init__))
      by (by apply sub_inv_init).
    unfold __sub__ in Hsub.
    eapply sub_loop_correct in Hsub as (v & -> & Hadd & Hlen); [|done..].
    exists v. split; [done|]. split; [|done].
    rewrite add_obj. cbn [__copy__ list_]. rewrite Hadd.
    cbn [mbind result_bind ret]. by destruct a.
  - intros i w v Hw Hi.
    destruct (sub_body_progress (list_ a) Hnd i w v Hw Hi)
      as (w' & v' & Hbody & [H|H]).
    + exists w', v'. by eauto.
    + destruct H as (j & si & oi & Hij & _ & _ & _ & _ & _ & Hv & Hm).
      exists w', v'. split; [done|]. right. by eauto.
  - intros Hfair.
    unfold __sub__.
    eapply (sub_loop_terminates (list_ a)); [done..| |reflexivity].
    by apply sub_inv_init.
Qed.

Lemma round_robin_in_range : in_range round_robin_3 3.
Proof. intros k. unfold round_robin_3. apply Nat.mod_upper_bound. lia. Qed.

Lemma round_robin_fair : fair round_robin_3 3.
Proof.
  intros k i Hi. exists (i + k * 3)%nat. split; [lia|].
  unfold round_robin_3. rewrite Nat.Div0.mod_add. by apply Nat.mod_small.
Qed.

Lemma difference_applies_witness :
  NoDup [1; 2; 3] /\ [1; 2; 3] ≡ₚ [3; 1; 2] /\
  in_range round_robin_3 3 /\
  exists fuel v,
    __sub__ fuel round_robin_3 (mk [1; 2; 3]) (mk [3; 1; 2]) = Some (ret v) /\
    __add__ (mk [3; 1; 2]) (PermutationList.obj v) = ret (mk [1; 2; 3]).
Proof.
  assert (Hnd : NoDup (list_ (mk [1; 2; 3])))
    by (apply (bool_decide_unpack _); reflexivity).
  assert (Hperm : list_ (mk [1; 2; 3]) ≡ₚ list_ (mk [3; 1; 2])).
  { cbn [list_]. change [3; 1; 2] with ([3] ++ [1; 2]).
    change [1; 2; 3] with ([1; 2] ++ [3]). apply Permutation_app_comm. }
  split; [exact Hnd|]. split; [exact Hperm|].
  split; [exact round_robin_in_range|].
  destruct (difference_applies (mk [1; 2; 3]) (mk [3; 1; 2]) round_robin_3
              Hnd Hperm round_robin_in_range) as (Hexit & _ & Hterm).
  destruct (Hterm round_robin_fair) as (fuel & v & Hsub).
  exists fuel, v. split; [exact Hsub|].
  destruct (Hexit fuel (ret v) Hsub) as (v' & Hv & Hadd & _).
  injection Hv as <-. exact Hadd.
Defined.

(** C1, counterexample: [a = [1, 2]], [b = [2, 1]] and every draw equal
    to 1. Position 1 differs, but the element searched, 2, stands before
    it, and the search runs over later positions only: no turn changes
    anything and the loop never exits. *)
Lemma difference_never_exits :
  NoDup [1; 2] /\ [1; 2] ≡ₚ [2; 1] /\ in_range (fun _ => 1%nat) 2 /\
  forall fuel, __sub__ fuel (fun _ => 1%nat) (mk [1; 2]) (mk [2; 1]) = None.
Proof.
  split; [apply (bool_decide_unpack _); reflexivity|].
  split; [apply Permutation_swap|].
  split; [intros k; lia|].
  assert (H : forall fuel k,
    sub_loop fuel (fun _ => 1%nat) k [1; 2] ([2; 1], PermutationList.__init__)
    = None).
  { induction fuel as [|fuel IH]; intros k; [reflexivity|].
    cbn [sub_loop]. rewrite bool_decide_eq_true_2 by done.
    rewrite bool_decide_eq_false_2 by done.
    change (sub_body [1; 2] 1 ([2; 1], PermutationList.__init__))
      with (ret (A:=list Z * PermutationList.t)
              ([2; 1], PermutationList.__init__)).
    apply IH. }
  intros fuel. apply H.
Qed.

End Difference.

(** ** The generation advance against the update of the particle *)

Section Advance.
Import ParticleSwarmOptimization.

(** C3, the code at the failing input: two particles at [[1, 2]] and
    [[2, 1]], reporting 0 and 1. The round is complete and the global
    best is [[1, 2]]. The second particle still has the empty velocity
    and its position [[2, 1]], whereas the difference of the global best
    and that position is the transposition [(0, 1)], which the factor
    [phig * rg], for [rg = 1.0], keeps. *)
Theorem advance_generation_keeps_velocity :
  let self := run [NotifyEvaluation (Int 0); NotifyEvaluation (Int 1)]
                  (__init__ example_shuffle (hyperparams 2) 2) in
  generations self = 1%nat /\
  best_global self = Some (Sequence.mk [1; 2]) /\
  (exists p, particles self !! 1%nat = Some p /\
     Particle.v p = PermutationList.__init__ /\
     Particle.x p = Sequence.mk [2; 1]) /\
  exists d,
    Sequence.__sub__ 1 (fun _ => 0%nat) (Sequence.mk [1; 2]) (Sequence.mk [2; 1])
      = Some (ret d) /\
    PermutationList.__rmul__ d (PyFloat (float_mul (phig self) float_1))
      = (ret [(0, 1)%nat], d).
Proof.
  split; [reflexivity|]. split; [reflexivity|]. split.
  - eexists. split; [reflexivity|]. split; reflexivity.
  - eexists. split; [reflexivity|]. vm_compute. reflexivity.
Qed.

End Advance.

(** ** The coordinator over whole runs *)

Section Runs.
Import ParticleSwarmOptimization Trace Reports.

Lemma reported_snoc calls c :
  reported (calls ++ [c]) =
  reported calls ++ match c with
                    | NotifyEvaluation value => [value]
                    | GetPositionToEvaluate => []
                    end.
Proof.
  induction calls as [|c' calls IH]; [by destruct c|].
  destruct c'; simpl; by rewrite IH.
Qed.

Lemma reported_length calls : length (reported calls) = notifications calls.
Proof.
  induction calls as [|c calls IH]; [done|]. destruct c; simpl; lia.
Qed.

(** The cursor and the round count one notification later. *)
Lemma succ_div_mod (m N : nat) :
  (0 < N)%nat ->
  if decide (S (m mod N) = N)
  then (S m mod N = 0 /\ S m / N = S (m / N))%nat
  else (S m mod N = S (m mod N) /\ S m / N = m / N)%nat.
Proof.
  intros HN. pose proof (Nat.div_mod_eq m N) as Hm.
  pose proof (Nat.mod_upper_bound m N ltac:(lia)) as Hlt.
  case_decide as Hlast.
  - assert (HS : S m = (N * S (m / N) + 0)%nat) by lia.
    split.
    + symmetry. eapply (Nat.mod_unique _ _ (S (m / N))); [lia|exact HS].
    + symmetry. eapply (Nat.div_unique _ _ _ 0%nat); [lia|exact HS].
  - assert (HS : S m = (N * (m / N) + S (m mod N))%nat) by lia.
    split.
    + symmetry. eapply (Nat.mod_unique _ _ (m / N)); [lia|exact HS].
    + symmetry. eapply (Nat.div_unique _ _ _ (S (m mod N))); [lia|exact HS].
Qed.

Lemma number_le_antisym a b : number_le a b -> number_le b a -> a = b.
Proof. destruct a, b; simpl; try done. intros. f_equal. lia. Qed.

Lemma number_ltb_ge a b : number_ltb a b = false -> number_le b a.
Proof.
  destruct a, b; simpl; try done. intros H%Z.ltb_ge. done.
Qed.

Lemma number_ltb_lt a b : number_ltb a b = true -> exists z, a = Int z.
Proof. destruct a; [by eauto|done]. Qed.

Lemma number_ltb_not_le a b : number_ltb a b = true -> ~ number_le b a.
Proof.
  destruct a, b; simpl; intros H; try done; [|by intros []].
  apply Z.ltb_lt in H. lia.
Qed.

Lemma is_minimum_nil : is_minimum Inf [].
Proof. split; [constructor|by right]. Qed.

(** The test of [notify_evaluation] keeps the least report. *)
Lemma is_minimum_snoc m vals value :
  is_minimum m vals ->
  is_minimum (if number_ltb value m then value else m) (vals ++ [value]).
Proof.
  intros [Hle Hin]. destruct (number_ltb value m) eqn:E.
  - split.
    + apply Forall_app. split.
      * eapply list.Forall_impl; [exact Hle|]. intros v Hv.
        eapply number_le_trans; [|exact Hv]. by apply number_lt_le.
      * constructor; [apply number_le_refl|constructor].
    + left. apply elem_of_app. right. by left.
  - split.
    + apply Forall_app. split; [done|].
      constructor; [by apply number_ltb_ge|constructor].
    + destruct Hin as [Hin| ->]; [|by right].
      left. apply elem_of_app. by left.
Qed.

Lemma is_minimum_unique m m' vals :
  is_minimum m vals -> is_minimum m' vals -> m = m'.
Proof.
  intros [Hle Hin] [Hle' Hin'].
  assert (H1 : number_le m m').
  { destruct Hin' as [Hin'| ->]; [|by destruct m].
    eapply list.Forall_forall in Hle; [exact Hle|done]. }
  assert (H2 : number_le m' m).
  { destruct Hin as [Hin| ->]; [|by destruct m'].
    eapply list.Forall_forall in Hle'; [exact Hle'|done]. }
  by apply number_le_antisym.
Qed.

(** The least of a list is below the least of a prefix of it. *)
Lemma is_minimum_take m m' vals k :
  is_minimum m vals -> is_minimum m' (take k vals) -> number_le m m'.
Proof.
  intros [Hle _] [_ [Hin| ->]]; [|by destruct m].
  eapply list.Forall_forall in Hle; [exact Hle|].
  by eapply subseteq_take.
Qed.

Lemma first_at_app m vals l j : first_at m vals j -> first_at m (vals ++ l) j.
Proof.
  intros [Hj Hfirst]. pose proof (lookup_lt_Some _ _ _ Hj) as Hlt. split.
  - by rewrite lookup_app_l.
  - intros j' Hj'. rewrite lookup_app_l by lia. by apply Hfirst.
Qed.

Lemma first_at_new m vals : m ∉ vals -> first_at m (vals ++ [m]) (length vals).
Proof.
  intros Hnot. split.
  - by rewrite lookup_app_r, Nat.sub_diag.
  - intros j' Hj'. rewrite lookup_app_l by lia.
    intros Hin. apply Hnot. by eapply list_elem_of_lookup_2.
Qed.

Lemma first_at_take m vals k j : first_at m (take k vals) j -> first_at m vals j.
Proof.
  intros [Hj Hfirst]. apply lookup_take_Some in Hj as [Hj Hlt]. split; [done|].
  intros j' Hj' Hin. apply (Hfirst j' Hj'). rewrite lookup_take_lt by lia. done.
Qed.

(** The iteration best after one more report, made by the particle at
    [xp]. *)
Lemma best_of_reports_snoc N position vals best value xp :
  best_of_reports N position vals best ->
  xp = position (length vals mod N)%nat ->
  best_of_reports N position (vals ++ [value])
    (if number_ltb value best.2 then (Some xp, value) else best).
Proof.
  intros [Hmin Hpos] ->. split.
  - pose proof (is_minimum_snoc _ _ value Hmin) as H.
    by destruct (number_ltb value best.2).
  - destruct (number_ltb value best.2) eqn:E; cbn [fst snd].
    + destruct (number_ltb_lt _ _ E) as [z ->].
      exists (length vals). split; [|done]. apply first_at_new.
      intros Hin. destruct Hmin as [Hle _].
      eapply list.Forall_forall in Hle; [|exact Hin].
      by apply number_ltb_not_le in E.
    + destruct best.2 as [z|]; [|done].
      destruct Hpos as (j & Hj & ->). exists j. split; [|done].
      by apply first_at_app.
Qed.

(** The global best after the commit that closes a round: the best of
    the reports of the rounds before, against the iteration best. *)
Lemma best_of_reports_commit N position vals k g b :
  best_of_reports N position (take k vals) g ->
  best_of_reports N position vals b ->
  best_of_reports N position vals (if number_ltb b.2 g.2 then b else g).
Proof.
  intros [Hgmin Hgpos] [Hbmin Hbpos].
  destruct (number_ltb b.2 g.2) eqn:E; [done|].
  assert (Heq : g.2 = b.2).
  { apply number_le_antisym; [by apply number_ltb_ge|].
    by eapply is_minimum_take. }
  split; [by rewrite Heq|].
  destruct g.2 as [z|]; [|done].
  destruct Hgpos as (j & Hj & ->). exists j. split; [|done].
  by eapply first_at_take.
Qed.

Lemma init_lookup shuffle hp n0 k :
  (k < Z.to_nat (Param.num_particles hp))%nat ->
  particles (__init__ shuffle hp n0) !! k
  = Some (Particle.__init__ (shuffle k) n0).
Proof.
  intros Hk. rewrite init_particles, list_lookup_fmap.
  by rewrite lookup_seq_lt by lia.
Qed.

(** The position of the particle under the cursor, along a run. *)
Lemma run_lookup_x shuffle hp n0 calls k p :
  particles (run calls (__init__ shuffle hp n0)) !! k = Some p ->
  Particle.x p = Sequence.__init__ (shuffle k) n0 /\
  Particle.v p = PermutationList.__init__ /\
  (k < Z.to_nat (Param.num_particles hp))%nat.
Proof.
  intros Hp.
  destruct (run_keeps_particles shuffle hp n0 calls) as [Hv Hx].
  assert (H1 : (Particle.x <$> particles (run calls (__init__ shuffle hp n0)))
                 !! k = Some (Particle.x p))
    by (by rewrite list_lookup_fmap, Hp).
  assert (H2 : (Particle.v <$> particles (run calls (__init__ shuffle hp n0)))
                 !! k = Some (Particle.v p))
    by (by rewrite list_lookup_fmap, Hp).
  rewrite Hx in H1. rewrite Hv in H2.
  apply lookup_replicate in H2 as [-> Hk].
  rewrite list_lookup_fmap, lookup_seq_lt in H1 by done.
  by injection H1 as <-.
Qed.

(** The state of the coordinator after any sequence of calls, from the
    reports made. *)
Lemma run_state shuffle hp n0 calls :
  1 <= Param.num_particles hp ->
  let N := Z.to_nat (Param.num_particles hp) in
  let position := fun k => Sequence.__init__ (shuffle k) n0 in
  let self := run calls (__init__ shuffle hp n0) in
  let vals := reported calls in
  let m := length vals in
  length (particles self) = N /\
  i self = (m mod N)%nat /\
  generations self = (m / N)%nat /\
  best_of_reports N position vals
    (best_iteration self, best_iteration_value self) /\
  best_of_reports N position (take (N * (m / N)) vals)
    (best_global self, best_global_value self).
Proof.
  intros HN N position.
  assert (HN0 : (0 < N)%nat) by (unfold N; lia).
  induction calls as [|c calls IH] using rev_ind.
  - cbn. rewrite length_fmap, length_seq.
    rewrite Nat.Div0.mod_0_l, Nat.Div0.div_0_l.
    repeat split; try done; try apply is_minimum_nil;
      rewrite take_nil; [constructor|by right].
  - rewrite run_snoc, reported_snoc. cbn zeta in IH.
    set (self := run calls _) in *. set (vals := reported calls) in *.
    destruct IH as (Hlen & Hi & Hg & Hbi & Hbg).
    destruct c as [|value].
    { rewrite app_nil_r. cbn zeta. rewrite perform_get. done. }
    cbn zeta. cbn [perform].
    assert (Hlt : (i self < length (particles self))%nat).
    { rewrite Hi, Hlen. by apply Nat.mod_upper_bound; lia. }
    destruct (lookup_lt_is_Some_2 _ _ Hlt) as [p Hp].
    destruct (run_lookup_x _ _ _ _ _ _ Hp) as (Hxp & _ & _).
    destruct (notify_evaluation_spec value self p Hp)
      as (Hbi' & Hbg' & Hi' & Hg' & Hlen' & _).
    set (self' := (notify_evaluation value self).2) in *.
    rewrite length_app. cbn [length]. rewrite Nat.add_1_r.
    pose proof (succ_div_mod (length vals) N HN0) as Hdm.
    rewrite Hlen, Hi in Hi', Hg', Hbg'.
    assert (Hiter : best_of_reports N position (vals ++ [value])
                      (best_iteration self', best_iteration_value self')).
    { rewrite Hbi'.
      apply (best_of_reports_snoc N position vals
               (best_iteration self, best_iteration_value self) value);
        [done|]. by rewrite Hxp, Hi. }
    split; [lia|].
    pose proof (Nat.div_mod_eq (length vals) N) as Hm.
    case_decide as Hlast.
    + rewrite bool_decide_eq_true_2 in Hi', Hg', Hbg' by done.
      destruct Hdm as [-> ->]. rewrite Hg in Hg'.
      split; [done|]. split; [done|]. split; [done|].
      rewrite take_ge by (rewrite length_app; simpl; lia).
      rewrite Hbg'. cbn [andb].
      apply (best_of_reports_commit N position (vals ++ [value])
               (N * (length vals / N))
               (best_global self, best_global_value self)
               (best_iteration self', best_iteration_value self'));
        [|done].
      rewrite take_app_le by lia. done.
    + rewrite bool_decide_eq_false_2 in Hi', Hg', Hbg' by done.
      destruct Hdm as [-> ->]. rewrite Hg in Hg'.
      split; [done|]. split; [done|]. split; [done|].
      rewrite take_app_le by lia.
      rewrite Hbg'. cbn [andb]. done.
Qed.

Ltac unfold_fields :=
  cbn [set_particles set_best_iteration set_best_global set_i count_generation
       w phip phig best_global best_global_value best_iteration
       best_iteration_value n particles i generations fst snd andb] in *.

(** A notification returns normally when a particle is under the
    cursor and the velocities are empty. *)
Lemma notify_evaluation_returns value self p :
  particles self !! i self = Some p ->
  Forall (fun q => Particle.v q = PermutationList.__init__) (particles self) ->
  (notify_evaluation value self).1 = ret tt.
Proof.
  intros Hp Hv. unfold notify_evaluation. rewrite Hp.
  set (p1 := if number_ltb value (Particle.best_value p) then _ else p).
  assert (Hv1 : Forall (fun q => Particle.v q = PermutationList.__init__)
                  (<[i self := p1]> (particles self))).
  { apply Forall_insert; [done|].
    eapply list.Forall_forall in Hv; [|by eapply list_elem_of_lookup_2].
    unfold p1. by destruct (number_ltb value (Particle.best_value p)). }
  clearbody p1.
  destruct self as [w0 phip0 phig0 bg bgv bi biv n0 ps i0 g].
  unfold_fields.
  destruct (number_ltb value biv); unfold_fields;
    (destruct (Z.of_nat i0 =? Z.of_nat (length (<[i0:=p1]> ps)) - 1);
     [|done]); unfold_fields;
    (match goal with
     | |- context [if number_ltb ?a ?b then set_best_global _ _ _ else _] =>
         destruct (number_ltb a b)
     end);
    unfold advance_generation; unfold_fields;
    by rewrite advance_loop_empty.
Qed.

Lemma run_velocities shuffle hp n0 calls :
  Forall (fun q => Particle.v q = PermutationList.__init__)
         (particles (run calls (__init__ shuffle hp n0))).
Proof.
  apply list.Forall_forall. intros q [k Hk]%list_elem_of_lookup.
  by destruct (run_lookup_x _ _ _ _ _ _ Hk) as (_ & Hv & _).
Qed.

(** The calls the driver makes next, on the state a run leaves. *)
Lemma run_next_calls shuffle hp n0 calls :
  1 <= Param.num_particles hp ->
  let N := Z.to_nat (Param.num_particles hp) in
  let self := run calls (__init__ shuffle hp n0) in
  let m := notifications calls in
  i self = (m mod N)%nat /\
  generations self = (m / N)%nat /\
  get_position_to_evaluate self
    = (ret (Sequence.__init__ (shuffle (m mod N)%nat) n0), self) /\
  forall value, (notify_evaluation value self).1 = ret tt.
Proof.
  intros HN N self m.
  destruct (run_state shuffle hp n0 calls HN) as (Hlen & Hi & Hg & _).
  rewrite reported_length in Hi, Hg. fold N self m in Hlen, Hi, Hg.
  assert (Hlt : (i self < length (particles self))%nat).
  { rewrite Hi, Hlen. apply Nat.mod_upper_bound. unfold N. lia. }
  destruct (lookup_lt_is_Some_2 _ _ Hlt) as [p Hp].
  destruct (run_lookup_x _ _ _ _ _ _ Hp) as (Hxp & _ & _).
  split; [done|]. split; [done|]. split.
  - unfold get_position_to_evaluate, getitem. fold self. rewrite Hp.
    cbn [mbind result_bind ret]. by rewrite Hxp, Hi.
  - intros value. eapply notify_evaluation_returns; [done|].
    apply run_velocities.
Qed.

(** X1. In a swarm of at least one particle, after any sequence of
    calls with [m] notifications: the cursor is [m mod num_particles] and
    [m / num_particles] generations have advanced;
    [get_position_to_evaluate] returns the position the constructor gave
    the particle under the cursor and changes nothing; a further
    [notify_evaluation] returns normally, whatever the value. *)
Theorem cursor_follows_notifications shuffle hp n0 calls :
  1 <= Param.num_particles hp ->
  let N := Z.to_nat (Param.num_particles hp) in
  let self := run calls (__init__ shuffle hp n0) in
  let m := notifications calls in
  i self = (m mod N)%nat /\
  generations self = (m / N)%nat /\
  get_position_to_evaluate self
    = (ret (Sequence.__init__ (shuffle (m mod N)%nat) n0), self) /\
  forall value, (notify_evaluation value self).1 = ret tt.
Proof.
  intros HN N self m.
  destruct (run_next_calls shuffle hp n0 calls HN) as (Hi & Hg & Hget & Hret).
  split; [exact Hi|]. split; [exact Hg|]. split; [exact Hget|exact Hret].
Qed.

Lemma cursor_follows_notifications_witness :
  1 <= Param.num_particles (hyperparams 3) /\
  let self := run [NotifyEvaluation (Int 4); NotifyEvaluation (Int 2);
                   NotifyEvaluation (Int 7); NotifyEvaluation (Int 1)]
                  (__init__ example_shuffle (hyperparams 3) 4) in
  i self = 1%nat /\ generations self = 1%nat /\
  (get_position_to_evaluate self).1 = ret (Sequence.mk [4; 3; 2; 1]).
Proof.
  split; [simpl; lia|].
  destruct (cursor_follows_notifications example_shuffle (hyperparams 3) 4
              [NotifyEvaluation (Int 4); NotifyEvaluation (Int 2);
               NotifyEvaluation (Int 7); NotifyEvaluation (Int 1)])
    as (Hi & Hg & Hget & _); [simpl; lia|].
  split; [exact Hi|]. split; [exact Hg|]. cbv zeta. rewrite Hget. reflexivity.
Defined.

(** X2. A coordinator built with [num_particles <= 0] has no particle:
    no sequence of calls changes its state, and every
    [get_position_to_evaluate] and [notify_evaluation] raises
    [IndexError]. *)
Theorem no_particle_raises shuffle hp n0 calls :
  Param.num_particles hp <= 0 ->
  let self := run calls (__init__ shuffle hp n0) in
  self = __init__ shuffle hp n0 /\
  (get_position_to_evaluate self).1 = raise IndexError /\
  forall value, notify_evaluation value self = (raise IndexError, self).
Proof.
  intros HN.
  assert (Hnil : particles (__init__ shuffle hp n0) = []).
  { rewrite init_particles.
    by replace (Z.to_nat (Param.num_particles hp)) with 0%nat by lia. }
  assert (Hrun : run calls (__init__ shuffle hp n0) = __init__ shuffle hp n0).
  { induction calls as [|c calls IH] using rev_ind; [done|].
    rewrite run_snoc, IH. destruct c as [|value]; [done|].
    cbn [perform]. apply notify_evaluation_raises. by rewrite Hnil. }
  cbv zeta. rewrite Hrun. split; [done|]. split.
  - unfold get_position_to_evaluate, getitem. by rewrite Hnil.
  - intros value. apply notify_evaluation_no_particle. by rewrite Hnil.
Qed.

Lemma no_particle_raises_witness :
  Param.num_particles Param.__init__ <= 0 /\
  (get_position_to_evaluate
     (run [NotifyEvaluation (Int 1)] (__init__ example_shuffle Param.__init__ 8))).1
  = raise IndexError.
Proof.
  split; [simpl; lia|].
  exact (proj1 (proj2 (no_particle_raises example_shuffle Param.__init__ 8
                         [NotifyEvaluation (Int 1)] ltac:(simpl; lia)))).
Defined.

(** X3. In a swarm of at least one particle, after any sequence of
    calls: [get_best_value] returns the least of the values reported in
    the completed rounds ([inf] when no round is complete), and
    [get_best_position] returns [None] while that value is [inf] and
    otherwise the position of the particle that made the first report
    of that value; both leave the state as it is. The iteration best is
    the same over all the reports made so far, rounds in progress
    included. *)
Theorem best_is_least_report shuffle hp n0 calls :
  1 <= Param.num_particles hp ->
  let N := Z.to_nat (Param.num_particles hp) in
  let position := fun k => Sequence.__init__ (shuffle k) n0 in
  let self := run calls (__init__ shuffle hp n0) in
  let vals := reported calls in
  let completed := take (N * (length vals / N)) vals in
  best_of_reports N position completed
    ((get_best_position self).1, (get_best_value self).1) /\
  (get_best_position self).2 = self /\
  (get_best_value self).2 = self /\
  best_of_reports N position vals
    (best_iteration self, best_iteration_value self).
Proof.
  intros HN N position self vals completed.
  destruct (run_state shuffle hp n0 calls HN) as (_ & _ & _ & Hbi & Hbg).
  done.
Qed.

Lemma best_is_least_report_witness :
  1 <= Param.num_particles (hyperparams 2) /\
  let self := run [NotifyEvaluation (Int 9); NotifyEvaluation (Int 5);
                   NotifyEvaluation (Int 3)]
                  (__init__ example_shuffle (hyperparams 2) 2) in
  is_minimum (get_best_value self).1 [Int 9; Int 5] /\
  is_minimum (best_iteration_value self) [Int 9; Int 5; Int 3].
Proof.
  split; [simpl; lia|].
  destruct (best_is_least_report example_shuffle (hyperparams 2) 2
              [NotifyEvaluation (Int 9); NotifyEvaluation (Int 5);
               NotifyEvaluation (Int 3)])
    as ([Hg _] & _ & _ & [Hi _]); [simpl; lia|].
  split; [exact Hg|exact Hi].
Defined.

Lemma reports_of_snoc N k j vals value :
  reports_of N k j (vals ++ [value]) =
  reports_of N k j vals
    ++ (if decide (((j + length vals) mod N)%nat = k) then [value] else []).
Proof.
  revert j. induction vals as [|v vals IH]; intros j; cbn [app reports_of length].
  - by rewrite app_nil_r, Nat.add_0_r.
  - rewrite IH, <- app_assoc.
    by replace (S j + length vals)%nat with (j + S (length vals))%nat by lia.
Qed.

(** X4. In a swarm of at least one particle, after any sequence of
    calls, for every particle: its position and its personal best
    position are both the position its constructor gave it (the
    personal best never differs from the current position), and its
    personal best value is the least of the values reported for it,
    those of the notifications whose rank is its index modulo
    [num_particles] ([inf] when there is none). *)
Theorem personal_best_is_least_own_report shuffle hp n0 calls :
  1 <= Param.num_particles hp ->
  let N := Z.to_nat (Param.num_particles hp) in
  let self := run calls (__init__ shuffle hp n0) in
  forall k, (k < N)%nat ->
    exists p, particles self !! k = Some p /\
      Particle.x p = Sequence.__init__ (shuffle k) n0 /\
      Particle.best p = Sequence.__init__ (shuffle k) n0 /\
      is_minimum (Particle.best_value p) (reports_of N k 0 (reported calls)).
Proof.
  intros HN N.
  induction calls as [|c calls IH] using rev_ind; intros self k Hk.
  - exists (Particle.__init__ (shuffle k) n0).
    split; [by apply init_lookup|]. split; [done|]. split; [done|].
    apply is_minimum_nil.
  - subst self. rewrite run_snoc, reported_snoc. cbn zeta in IH.
    set (self := run calls _) in *.
    destruct c as [|value]; [rewrite app_nil_r; by apply IH|].
    cbn [perform].
    destruct (run_state shuffle hp n0 calls HN) as (Hlen & Hi & _).
    fold self N in Hlen, Hi.
    assert (Hlt : (i self < length (particles self))%nat).
    { rewrite Hi, Hlen. apply Nat.mod_upper_bound. lia. }
    destruct (lookup_lt_is_Some_2 _ _ Hlt) as [pi Hpi].
    destruct (notify_evaluation_spec value self pi Hpi)
      as (_ & _ & _ & _ & Hlen' & Hps).
    destruct (lookup_lt_is_Some_2 (particles (notify_evaluation value self).2) k)
      as [p' Hp']; [cbv zeta in Hlen'; rewrite Hlen', Hlen; exact Hk|].
    exists p'. split; [done|].
    destruct (Hps k p' Hp') as (q & Hq & _ & Hb & _).
    destruct (IH k Hk) as (q0 & Hq0 & Hxq & Hbq & Hmin).
    rewrite Hq in Hq0. injection Hq0 as <-.
    assert (Hx' : Particle.x p' = Sequence.__init__ (shuffle k) n0).
    { assert (Hrun : particles (run (calls ++ [NotifyEvaluation value])
                                    (__init__ shuffle hp n0)) !! k = Some p')
        by (by rewrite run_snoc).
      by destruct (run_lookup_x _ _ _ _ _ _ Hrun). }
    split; [done|].
    rewrite reports_of_snoc, Nat.add_0_l, <- Hi.
    destruct (decide (k = i self)) as [->|Hne].
    + rewrite bool_decide_eq_true_2 in Hb by done. cbn [andb] in Hb.
      rewrite decide_True by done.
      pose proof (is_minimum_snoc _ _ value Hmin) as Hmin'.
      destruct (number_ltb value (Particle.best_value q));
        injection Hb as -> ->; by rewrite ?Hxq.
    + rewrite bool_decide_eq_false_2 in Hb by done. cbn [andb] in Hb.
      rewrite decide_False by done. rewrite app_nil_r.
      injection Hb as -> ->. done.
Qed.

Lemma personal_best_is_least_own_report_witness :
  1 <= Param.num_particles (hyperparams 2) /\
  exists p,
    particles (run [NotifyEvaluation (Int 9); NotifyEvaluation (Int 5);
                    NotifyEvaluation (Int 3)]
                   (__init__ example_shuffle (hyperparams 2) 2)) !! 0%nat
      = Some p /\
    Particle.best p = Sequence.mk [1; 2] /\
    is_minimum (Particle.best_value p) [Int 9; Int 3].
Proof.
  split; [simpl; lia|].
  destruct (personal_best_is_least_own_report example_shuffle (hyperparams 2) 2
              [NotifyEvaluation (Int 9); NotifyEvaluation (Int 5);
               NotifyEvaluation (Int 3)] ltac:(simpl; lia) 0%nat
              ltac:(simpl; lia))
    as (p & Hp & _ & Hb & Hmin).
  exists p. split; [exact Hp|]. split; [exact Hb|exact Hmin].
Defined.

End Runs.

(** ** The driver of main.py *)

Section Driver.
Import ParticleSwarmOptimization Trace Reports.

Variable shuffle : nat -> list Z -> list Z.
Variable hp : Param.t.
Variable n0 : Z.

Let N := Z.to_nat (Param.num_particles hp).
Let position := fun k => Sequence.__init__ (shuffle k) n0.

(** The notifications of the first [t] turns of the driver. *)
Let turns (t : nat) : list call :=
  (fun j => NotifyEvaluation (Int (evaluation position N j))) <$> seq 0 t.

Lemma turns_S t :
  turns (S t) = turns t ++ [NotifyEvaluation (Int (evaluation position N t))].
Proof. unfold turns. by rewrite seq_S, fmap_app. Qed.

Lemma turns_notifications t : notifications (turns t) = t.
Proof.
  induction t as [|t IH]; [done|].
  rewrite turns_S, notifications_snoc, IH. simpl. lia.
Qed.

Lemma turns_reported t :
  reported (turns t) = (fun j => Int (evaluation position N j)) <$> seq 0 t.
Proof.
  induction t as [|t IH]; [done|].
  by rewrite turns_S, reported_snoc, IH, seq_S, fmap_app.
Qed.

(** The loop of the driver against the coordinator run by its
    notifications. *)
Lemma loop_run t j st :
  1 <= Param.num_particles hp ->
  Main.pso st = run (turns j) (__init__ shuffle hp n0) ->
  Main.loop t st =
    ret (Main.mk
           (run (turns (j + t)) (__init__ shuffle hp n0))
           (Main.position_history st
              ++ ((fun i => Sequence.list_ (position (i mod N)%nat))
                    <$> seq j t))
           (Main.quality_history st
              ++ (evaluation position N <$> seq j t))).
Proof.
  intros HN. revert j st. induction t as [|t IH]; intros j st Hpso.
  - cbn [Main.loop seq fmap list_fmap]. rewrite !app_nil_r, Nat.add_0_r, <- Hpso.
    by destruct st.
  - cbn [Main.loop]. unfold Main.body.
    destruct (run_next_calls shuffle hp n0 (turns j) HN)
      as (_ & _ & Hget & Hnotify).
    cbv zeta in Hget, Hnotify. rewrite turns_notifications in Hget.
    rewrite Hpso, Hget. cbn [mbind result_bind ret].
    specialize (Hnotify (Int (cost_function
      (Sequence.list_ (Sequence.__init__ (shuffle (j mod Z.to_nat (Param.num_particles hp))%nat) n0))))).
    destruct (notify_evaluation _ _) as [r' pso2] eqn:E.
    cbn [fst] in Hnotify. subst r'. cbn [mbind result_bind ret].
    rewrite (IH (S j)).
    + cbn [Main.pso Main.position_history Main.quality_history].
      replace (S j + t)%nat with (j + S t)%nat by lia.
      cbn [seq fmap list_fmap]. rewrite <- !app_assoc. done.
    + cbn [Main.pso]. rewrite turns_S, run_snoc. cbn [perform].
      unfold evaluation, position, N. by rewrite E.
Qed.

(** X5. The whole script. With at least one particle it ends normally
    after [1000 * num_particles] evaluations, and what it prints is the
    best of the positions the constructors shuffled: the position of
    the first particle of least cost among them, with its cost; the
    history of values repeats the costs of those positions round after
    round. With no particle it evaluates nothing and prints [None] and
    [inf]. *)
Theorem main_prints_best_initial_position :
  (1 <= Param.num_particles hp ->
     exists st k0,
       Main.main shuffle hp n0 = ret st /\
       (k0 < N)%nat /\
       (get_best_position (Main.pso st)).1 = Some (position k0) /\
       (get_best_value (Main.pso st)).1
         = Int (cost_function (Sequence.list_ (position k0))) /\
       (forall k, (k < N)%nat ->
          cost_function (Sequence.list_ (position k0))
          <= cost_function (Sequence.list_ (position k))) /\
       (forall k, (k < k0)%nat ->
          cost_function (Sequence.list_ (position k0))
          < cost_function (Sequence.list_ (position k))) /\
       Main.quality_history st
         = evaluation position N <$> seq 0 (1000 * N) /\
       Main.position_history st
         = (fun j => Sequence.list_ (position (j mod N)%nat))
             <$> seq 0 (1000 * N)) /\
  (Param.num_particles hp <= 0 ->
     exists st,
       Main.main shuffle hp n0 = ret st /\
       (get_best_position (Main.pso st)).1 = None /\
       (get_best_value (Main.pso st)).1 = Inf /\
       Main.quality_history st = []).
Proof.
  split.
  - intros HN. set (T := (1000 * N)%nat).
    assert (HT : Z.to_nat (1000 * Param.num_particles hp) = T)
      by (unfold T, N; lia).
    assert (HN0 : (0 < N)%nat) by (unfold N; lia).
    pose proof (loop_run T 0 (Main.mk (__init__ shuffle hp n0) [] []) HN
                  eq_refl) as Hloop.
    cbn [Main.position_history Main.quality_history app] in Hloop.
    rewrite Nat.add_0_l in Hloop.
    destruct (run_state shuffle hp n0 (turns T) HN) as (_ & _ & _ & _ & Hbg).
    fold N in Hbg. rewrite turns_reported, length_fmap, length_seq in Hbg.
    replace (N * (T / N))%nat with T in Hbg.
    2: { unfold T. rewrite Nat.div_mul by lia. lia. }
    rewrite take_ge in Hbg by (rewrite length_fmap, length_seq; lia).
    set (vals := (fun j => Int (evaluation position N j)) <$> seq 0 T) in *.
    set (self := run (turns T) (__init__ shuffle hp n0)) in *.
    assert (Hval : forall j, (j < T)%nat ->
              vals !! j = Some (Int (evaluation position N j))).
    { intros j Hj. unfold vals. rewrite list_lookup_fmap.
      by rewrite lookup_seq_lt by done. }
    destruct Hbg as [[Hle Hin] Hpos]. cbn [fst snd] in *.
    destruct (best_global_value self) as [c|] eqn:Hbgv.
    2: { exfalso.
         assert (H0 : Int (evaluation position N 0) ∈ vals).
         { eapply list_elem_of_lookup_2. apply (Hval 0%nat). unfold T. lia. }
         eapply list.Forall_forall in Hle; [|exact H0]. exact Hle. }
    destruct Hpos as (j & [Hj Hfirst] & Hbgp).
    assert (HjT : (j < T)%nat).
    { apply lookup_lt_Some in Hj. unfold vals in Hj.
      by rewrite length_fmap, length_seq in Hj. }
    rewrite (Hval j HjT) in Hj. injection Hj as Hc.
    assert (HjN : (j < N)%nat).
    { destruct (decide (j < N)%nat) as [|Hge]; [done|exfalso].
      apply (Hfirst (j - N)%nat); [lia|].
      rewrite Hval by lia. do 2 f_equal. rewrite <- Hc.
      unfold evaluation. do 3 f_equal.
      replace j with ((j - N) + 1 * N)%nat at 2 by lia.
      by rewrite Nat.Div0.mod_add. }
    assert (Hsmall : forall k, (k < N)%nat ->
              evaluation position N k
              = cost_function (Sequence.list_ (position k))).
    { intros k Hk. unfold evaluation. by rewrite Nat.mod_small. }
    rewrite Nat.mod_small in Hbgp by done.
    rewrite Hsmall in Hc by done.
    exists (Main.mk self
              ((fun i => Sequence.list_ (position (i mod N)%nat)) <$> seq 0 T)
              (evaluation position N <$> seq 0 T)), j.
    split; [unfold Main.main; by rewrite HT|].
    split; [done|]. cbn [Main.pso get_best_position get_best_value fst].
    split; [done|]. split; [by rewrite Hbgv, Hc|].
    assert (Hall : forall k, (k < N)%nat ->
              c <= cost_function (Sequence.list_ (position k))).
    { intros k Hk. eapply list.Forall_forall in Hle.
      2: { eapply list_elem_of_lookup_2. apply (Hval k). unfold T. lia. }
      rewrite Hsmall in Hle by done. exact Hle. }
    rewrite Hc.
    split; [done|]. split; [|done].
    intros k Hk. pose proof (Hall k ltac:(lia)) as Hck.
    assert (Hne : c ≠ cost_function (Sequence.list_ (position k))).
    { intros Heq. apply (Hfirst k Hk). rewrite Hval by (unfold T; lia).
      rewrite Hsmall by lia. by rewrite Heq. }
    lia.
  - intros HN. exists (Main.mk (__init__ shuffle hp n0) [] []).
    unfold Main.main.
    replace (Z.to_nat (1000 * Param.num_particles hp)) with 0%nat by lia.
    done.
Qed.

End Driver.

Lemma main_prints_best_initial_position_witness :
  exists st,
    Main.main example_shuffle (hyperparams 2) 4 = ret st /\
    (ParticleSwarmOptimization.get_best_value (Main.pso st)).1 = Int 6.
Proof.
  destruct (main_prints_best_initial_position example_shuffle (hyperparams 2) 4)
    as [H _].
  destruct H as (st & k0 & Hmain & Hk0 & _ & Hval & _); [simpl; lia|].
  exists st. split; [exact Hmain|]. rewrite Hval.
  assert (Hcases : k0 = 0%nat \/ k0 = 1%nat) by (simpl in Hk0; lia).
  destruct Hcases as [-> | ->]; reflexivity.
Defined.

(** ** The distance between sequences *)

Section Distance.

Lemma matches_sym a w : matches a w = matches w a.
Proof.
  revert w. induction a as [|x a IH]; intros [|y w]; simpl; try done.
  rewrite IH. repeat case_decide; congruence.
Qed.

Lemma matches_nil_r a : matches a [] = 0%nat.
Proof. by destruct a. Qed.

(** The loop of [get_distance_to] on a list: [IndexError] when the
    list ends first, and otherwise the count of the positions that
    differ, added to the count so far. *)
Lemma distance_loop_list l i a count :
  distance_loop (AList l) i a count =
  if decide (length a <= length (drop i l))%nat
  then ret (count + Z.of_nat (length a - matches a (drop i l)))
  else raise IndexError.
Proof.
  revert i count. induction a as [|x a IH]; intros i count.
  - cbn [distance_loop length]. rewrite decide_True by lia.
    f_equal. simpl. lia.
  - cbn [distance_loop subscript]. unfold getitem.
    destruct (l !! i) as [o|] eqn:Hlk.
    + cbn [mbind result_bind ret]. rewrite IH.
      pose proof (drop_S l o i Hlk) as Hdrop. rewrite Hdrop.
      cbn [length matches].
      pose proof (matches_le a (drop (S i) l)) as Hm.
      destruct (decide (length a <= length (drop (S i) l))%nat).
      * rewrite decide_True by lia. f_equal.
        case_bool_decide; case_decide; try congruence; lia.
      * by rewrite decide_False by lia.
    + cbn [mbind result_bind]. apply lookup_ge_None in Hlk.
      rewrite drop_ge by done. cbn [length]. by rewrite decide_False by lia.
Qed.

(** X6. [get_distance_to] on a list raises [IndexError] when the list
    is shorter than the sequence, and otherwise returns the number of
    positions of the sequence at which the two differ, the elements of
    the list beyond the sequence not counting. On a [Sequence] object
    it raises [TypeError], unless the sequence is empty, when it
    returns 0. *)
Theorem get_distance_to_counts (self : Sequence.t) :
  (forall l,
     get_distance_to self (AList l) =
     if decide (length (Sequence.list_ self) <= length l)%nat
     then ret (Z.of_nat (length (Sequence.list_ self)
                         - matches (Sequence.list_ self) l))
     else raise IndexError) /\
  (forall s,
     get_distance_to self (ASequence s) =
     if decide (Sequence.list_ self = []) then ret 0 else raise TypeError).
Proof.
  split.
  - intros l. unfold get_distance_to. rewrite distance_loop_list.
    rewrite drop_0. by case_decide.
  - intros s. unfold get_distance_to. by destruct (Sequence.list_ self).
Qed.

Lemma distance_equal_length (a b : list Z) :
  length a = length b ->
  get_distance_to (Sequence.mk a) (AList b)
  = ret (Z.of_nat (length a - matches a b)).
Proof.
  intros Hlen. unfold get_distance_to. rewrite distance_loop_list, drop_0.
  cbn [Sequence.list_]. by rewrite decide_True by lia.
Qed.

(** The positions that differ between [a] and [c] differ between [a]
    and [b] or between [b] and [c]. *)
Lemma mismatches_triangle (a b c : list Z) :
  length a = length b -> length b = length c ->
  (length a - matches a c <=
   (length a - matches a b) + (length b - matches b c))%nat.
Proof.
  revert b c. induction a as [|x a IH]; intros [|y b] [|z c]; simpl; try lia.
  intros [= Hab] [= Hbc]. specialize (IH b c Hab Hbc).
  pose proof (matches_le a b). pose proof (matches_le b c).
  pose proof (matches_le a c).
  repeat case_decide; subst; try congruence; lia.
Qed.

(** X7. On sequences of one length [get_distance_to] is a metric: the
    distance is 0 exactly between equal sequences, it is the same in
    both directions, and the distance from [a] to [c] is at most the
    distance from [a] to [b] plus the distance from [b] to [c]. *)
Theorem get_distance_to_metric (a b c : Sequence.t) :
  length (Sequence.list_ a) = length (Sequence.list_ b) ->
  length (Sequence.list_ b) = length (Sequence.list_ c) ->
  exists dab dba dbc dac : Z,
    get_distance_to a (AList (Sequence.list_ b)) = ret dab /\
    get_distance_to b (AList (Sequence.list_ a)) = ret dba /\
    get_distance_to b (AList (Sequence.list_ c)) = ret dbc /\
    get_distance_to a (AList (Sequence.list_ c)) = ret dac /\
    0 <= dab /\ (dab = 0 <-> a = b) /\ dab = dba /\ dac <= dab + dbc.
Proof.
  destruct a as [a], b as [b], c as [c]. cbn [Sequence.list_].
  intros Hab Hbc.
  eexists _, _, _, _.
  rewrite !distance_equal_length by congruence.
  repeat (split; [reflexivity|]).
  pose proof (matches_le a b) as Hle.
  split; [lia|]. split; [|split].
  - split.
    + intros H0. f_equal. apply matches_full; [done|lia].
    + intros [= ->]. rewrite matches_refl. lia.
  - rewrite (matches_sym b a), Hab. done.
  - pose proof (mismatches_triangle a b c Hab Hbc). lia.
Qed.

Lemma get_distance_to_metric_witness :
  exists dab dbc dac : Z,
    get_distance_to (Sequence.mk [1; 2; 3]) (AList [3; 1; 2]) = ret dab /\
    get_distance_to (Sequence.mk [3; 1; 2]) (AList [3; 2; 1]) = ret dbc /\
    get_distance_to (Sequence.mk [1; 2; 3]) (AList [3; 2; 1]) = ret dac /\
    dac <= dab + dbc.
Proof.
  destruct (get_distance_to_metric (Sequence.mk [1; 2; 3])
              (Sequence.mk [3; 1; 2]) (Sequence.mk [3; 2; 1])
              eq_refl eq_refl)
    as (dab & dba & dbc & dac & H1 & _ & H3 & H4 & _ & _ & _ & Htri).
  exists dab, dbc, dac. split; [exact H1|]. split; [exact H3|].
  split; [exact H4|exact Htri].
Defined.

End Distance.

(** ** Applying a delta, and undoing it *)

Section Application.
Import Sequence.

(** One swap of [__add__], done twice, gives the list back. *)
Lemma swap_swap (l : list Z) i j li lj :
  l !! i = Some li -> l !! j = Some lj ->
  <[i := li]> (<[j := lj]> (<[i := lj]> (<[j := li]> l))) = l.
Proof.
  intros Hi Hj.
  pose proof (lookup_lt_Some _ _ _ Hi) as Hilt.
  pose proof (lookup_lt_Some _ _ _ Hj) as Hjlt.
  apply list_eq. intros k.
  destruct (decide (k = i)) as [->|Hki].
  - rewrite list_lookup_insert_eq by (rewrite !length_insert; lia). done.
  - rewrite list_lookup_insert_ne by done.
    destruct (decide (k = j)) as [->|Hkj].
    + rewrite list_lookup_insert_eq by (rewrite !length_insert; lia). done.
    + by rewrite !list_lookup_insert_ne by done.
Qed.

(** The loop of [__add__]: it raises [IndexError] exactly when a
    position of a transposition is outside the list, and otherwise
    returns a permutation of the list. *)
Lemma add_loop_within (l : list Z) ks :
  (Forall (within (length l)) ks ->
     exists l', add_loop l ks = ret l' /\ l' ≡ₚ l) /\
  (~ Forall (within (length l)) ks -> add_loop l ks = raise IndexError).
Proof.
  revert l. induction ks as [|[i j] ks IH]; intros l.
  - split; [by exists l|]. intros H. destruct H. constructor.
  - cbn [add_loop]. unfold getitem.
    destruct (l !! j) as [lj|] eqn:Hj.
    2: { split; [|done]. intros H. apply list.Forall_cons in H as [[_ H] _].
         apply lookup_ge_None in Hj. simpl in H. lia. }
    destruct (l !! i) as [li|] eqn:Hi.
    2: { split; [|done]. intros H. apply list.Forall_cons in H as [[H _] _].
         apply lookup_ge_None in Hi. simpl in H. lia. }
    cbn [mbind result_bind ret].
    destruct (IH (<[i:=lj]> (<[j:=li]> l))) as [IHin IHout].
    rewrite !length_insert in IHin, IHout.
    assert (Hw : within (length l) (i, j)).
    { split; simpl; by eapply lookup_lt_Some. }
    split.
    + intros H. apply list.Forall_cons in H as [_ H].
      destruct (IHin H) as (l' & -> & Hperm). exists l'. split; [done|].
      etrans; [exact Hperm|]. by apply Permutation_insert_swap.
    + intros H. apply IHout. intros Hks. apply H. by constructor.
Qed.

Lemma add_loop_reverse (l l' : list Z) ks :
  add_loop l ks = ret l' -> add_loop l' (reverse ks) = ret l.
Proof.
  revert l. induction ks as [|[i j] ks IH]; intros l.
  - by intros [= ->].
  - cbn [add_loop]. unfold getitem.
    destruct (l !! j) as [lj|] eqn:Hj; [|done].
    destruct (l !! i) as [li|] eqn:Hi; [|done].
    cbn [mbind result_bind ret]. intros Hks.
    rewrite reverse_cons, add_loop_app, (IH _ Hks).
    cbn [mbind result_bind ret add_loop]. unfold getitem.
    pose proof (lookup_lt_Some _ _ _ Hi) as Hilt.
    pose proof (lookup_lt_Some _ _ _ Hj) as Hjlt.
    assert (Hj' : <[i:=lj]> (<[j:=li]> l) !! j = Some li).
    { destruct (decide (i = j)) as [->|Hne].
      - rewrite list_lookup_insert_eq by (rewrite length_insert; lia).
        congruence.
      - rewrite list_lookup_insert_ne by done.
        by rewrite list_lookup_insert_eq by lia. }
    assert (Hi' : <[i:=lj]> (<[j:=li]> l) !! i = Some lj).
    { by rewrite list_lookup_insert_eq by (rewrite length_insert; lia). }
    rewrite Hj', Hi'. cbn [mbind result_bind ret]. f_equal.
    by apply swap_swap.
Qed.

Lemma list_index_spec len i :
  match list_index len i with
  | Some k => (k < len)%nat /\ - Z.of_nat len <= i < Z.of_nat len
  | None => ~ (- Z.of_nat len <= i < Z.of_nat len)
  end.
Proof. unfold list_index. repeat case_bool_decide; lia. Qed.

Lemma list_index_of_nat len k :
  list_index len (Z.of_nat k) =
  if bool_decide (k < len)%nat then Some k else None.
Proof.
  unfold list_index. rewrite bool_decide_eq_true_2 by lia.
  repeat case_bool_decide; first [lia | by rewrite ?Nat2Z.id].
Qed.

(** With every position a subscript of the list, the loop on int pairs
    is the loop on the places they name. *)
Lemma add_loop_int_within (l : list Z) ks :
  Forall (within_int (length l)) ks ->
  add_loop_int l ks = add_loop l (places (length l) <$> ks) /\
  Forall (within (length l)) (places (length l) <$> ks).
Proof.
  revert l. induction ks as [|[i j] ks IH]; intros l H.
  - split; [done|constructor].
  - apply list.Forall_cons in H as [[Hi Hj] H]. simpl in Hi, Hj.
    rewrite fmap_cons.
    cbn [add_loop_int add_loop]. unfold places at 1 3. cbn [fst snd].
    unfold getitem_int, setitem_int.
    pose proof (list_index_spec (length l) i) as Si.
    pose proof (list_index_spec (length l) j) as Sj.
    destruct (list_index (length l) i) as [ki|] eqn:Ei; [|done].
    destruct (list_index (length l) j) as [kj|] eqn:Ej; [|done].
    destruct Si as [Hki _], Sj as [Hkj _]. cbn [default from_option id].
    unfold getitem.
    destruct (lookup_lt_is_Some_2 l ki Hki) as [li Hli].
    destruct (lookup_lt_is_Some_2 l kj Hkj) as [lj Hlj].
    rewrite Hli, Hlj. cbn [mbind result_bind ret].
    rewrite length_insert, Ei. cbn [mbind result_bind ret].
    destruct (IH (<[ki:=lj]> (<[kj:=li]> l))) as [IH1 IH2].
    { by rewrite !length_insert. }
    rewrite !length_insert in IH1, IH2. split; [done|].
    constructor; [by split|done].
Qed.

(** With a position that is no subscript of the list, the loop on int
    pairs raises [IndexError]. *)
Lemma add_loop_int_outside (l : list Z) ks :
  ~ Forall (within_int (length l)) ks ->
  add_loop_int l ks = raise IndexError.
Proof.
  revert l. induction ks as [|[i j] ks IH]; intros l H.
  - destruct H. constructor.
  - cbn [add_loop_int]. unfold getitem_int, setitem_int.
    pose proof (list_index_spec (length l) i) as Si.
    pose proof (list_index_spec (length l) j) as Sj.
    destruct (list_index (length l) j) as [kj|] eqn:Ej; [|done].
    destruct Sj as [Hkj Hj]. unfold getitem.
    destruct (lookup_lt_is_Some_2 l kj Hkj) as [lj Hlj].
    rewrite Hlj. cbn [mbind result_bind ret].
    destruct (list_index (length l) i) as [ki|] eqn:Ei; [|done].
    destruct Si as [Hki Hi].
    destruct (lookup_lt_is_Some_2 l ki Hki) as [li Hli].
    rewrite Hli. cbn [mbind result_bind ret].
    rewrite length_insert, Ei. cbn [mbind result_bind ret].
    apply IH. rewrite !length_insert. intros Hks. apply H.
    constructor; [by split|done].
Qed.

(** On non-negative positions the loop on int pairs is the loop of
    [__add__] as [__sub__] feeds it. *)
Lemma add_loop_int_of_nat (l : list Z) (ks : list transposition) :
  add_loop_int l ((fun p => (Z.of_nat p.1, Z.of_nat p.2)) <$> ks) =
  add_loop l ks.
Proof.
  revert l. induction ks as [|[i j] ks IH]; intros l; [done|].
  rewrite fmap_cons. cbn [add_loop_int add_loop fst snd].
  unfold getitem_int, setitem_int. rewrite !list_index_of_nat.
  unfold getitem.
  destruct (l !! j) as [lj|] eqn:Hj.
  2: { apply lookup_ge_None in Hj.
       by rewrite bool_decide_eq_false_2 by lia. }
  pose proof (lookup_lt_Some _ _ _ Hj) as Hjlt.
  rewrite (bool_decide_eq_true_2 (j < length l)%nat) by done.
  rewrite Hj. cbn [mbind result_bind ret].
  destruct (l !! i) as [li|] eqn:Hi.
  2: { apply lookup_ge_None in Hi.
       by rewrite bool_decide_eq_false_2 by lia. }
  pose proof (lookup_lt_Some _ _ _ Hi) as Hilt.
  rewrite (bool_decide_eq_true_2 (i < length l)%nat) by done.
  rewrite Hi. cbn [mbind result_bind ret].
  rewrite length_insert, list_index_of_nat.
  rewrite (bool_decide_eq_true_2 (i < length l)%nat) by done.
  cbn [mbind result_bind ret]. apply IH.
Qed.

Lemma od_keys_int_keys d :
  od_keys (int_keys d) =
  (fun p => (Z.of_nat p.1, Z.of_nat p.2)) <$> PermutationList.keys d.
Proof.
  unfold od_keys, int_keys, PermutationList.keys, od_keys.
  rewrite <- !list_fmap_compose. done.
Qed.

(** X8. For a delta whose keys are pairs of ints, whatever their sign:
    [self + delta] raises [IndexError] exactly when some transposition
    of the delta has a position that is no subscript of the sequence,
    one outside [-len .. len - 1]; otherwise it returns a sequence whose
    elements are a permutation of those of [self] (of the same length,
    with the same elements as often), and adding to the result the
    delta with its transpositions in reverse order gives [self] back.
    On the non-negative positions that [__sub__] records this is the
    [__add__] of the module [Sequence]. *)
Theorem add_permutes_and_undoes (self : t) (d : int_delta) :
  (Forall (within_int (length (list_ self))) (od_keys d) ->
     exists s',
       add_int self d = ret s' /\
       list_ s' ≡ₚ list_ self /\
       add_int s' (reversed d) = ret self) /\
  (~ Forall (within_int (length (list_ self))) (od_keys d) ->
     add_int self d = raise IndexError) /\
  (forall d0 : PermutationList.t,
     d = int_keys d0 ->
     add_int self d = __add__ self (PermutationList.obj d0)).
Proof.
  unfold add_int. cbn [__copy__ list_]. split; [|split].
  - intros H. destruct (add_loop_int_within _ _ H) as [E W].
    destruct (add_loop_within (list_ self)
                (places (length (list_ self)) <$> od_keys d)) as [Hin _].
    destruct (Hin W) as (l' & Hl' & Hperm).
    exists (mk l'). rewrite E, Hl'. cbn [mbind result_bind ret list_].
    split; [done|]. split; [done|].
    assert (Hlen : length l' = length (list_ self))
      by (by apply Permutation_length).
    assert (Hk : od_keys (reversed d) = reverse (od_keys d)).
    { unfold reversed, od_keys. apply fmap_reverse. }
    rewrite Hk.
    destruct (add_loop_int_within l' (reverse (od_keys d))) as [E' _].
    { rewrite Hlen. by apply Forall_reverse. }
    rewrite E', Hlen, fmap_reverse.
    rewrite (add_loop_reverse _ _ _ Hl'). cbn [mbind result_bind ret].
    by destruct self.
  - intros H. by rewrite add_loop_int_outside.
  - intros d0 ->. rewrite add_obj, od_keys_int_keys, add_loop_int_of_nat.
    done.
Qed.

(** [[1, 2, 3] + delta] for the delta of the one key [(-1, 0)] is
    [[3, 2, 1]], and adding the delta again gives [[1, 2, 3]] back. *)
Lemma add_permutes_and_undoes_witness :
  Forall (within_int 3) (od_keys [((-1, 0), tt)]) /\
  add_int (mk [1; 2; 3]) [((-1, 0), tt)] = ret (mk [3; 2; 1]) /\
  exists s',
    add_int (mk [1; 2; 3]) [((-1, 0), tt)] = ret s' /\
    add_int s' (reversed [((-1, 0), tt)]) = ret (mk [1; 2; 3]).
Proof.
  assert (H : Forall (within_int (length (list_ (mk [1; 2; 3]))))
                (od_keys [((-1, 0), tt)])).
  { repeat constructor; simpl; lia. }
  split; [exact H|]. split; [reflexivity|].
  destruct (add_permutes_and_undoes (mk [1; 2; 3]) [((-1, 0), tt)])
    as [Hin _].
  destruct (Hin H) as (s' & Hadd & _ & Hback).
  exists s'. split; [exact Hadd|exact Hback].
Defined.

End Application.

(** ** The difference beyond permutation states *)

Section DifferenceMore.
Import Sequence.

Lemma od_update_keys_elem {V : Type} (d : OrderedDict transposition V) k val p :
  p ∈ od_keys (od_update d k val) -> p ∈ od_keys d \/ p = k.
Proof.
  unfold od_keys. induction d as [|[k' v'] d IH]; cbn [od_update].
  - rewrite fmap_cons. intros [->|H]%elem_of_cons; [by right|].
    by apply elem_of_nil in H.
  - case_decide as Hk.
    + rewrite !fmap_cons. simpl. by left.
    + rewrite !fmap_cons. simpl.
      intros [->|H]%elem_of_cons; [left; by left|].
      destruct (IH H) as [H'|H']; [left; by right|by right].
Qed.

Lemma od_update_keys_present {V : Type} (d : OrderedDict transposition V) k val :
  k ∈ od_keys d -> od_keys (od_update d k val) = od_keys d.
Proof.
  unfold od_keys. induction d as [|[k' v'] d IH]; cbn [od_update].
  - intros H. by apply elem_of_nil in H.
  - rewrite fmap_cons. intros Hin. case_decide as Hk; [done|].
    rewrite !fmap_cons. simpl in *. f_equal. apply IH.
    by apply elem_of_cons in Hin as [->|Hin].
Qed.

Lemma keys_add_NoDup (p : transposition) (d : PermutationList.t) :
  NoDup (PermutationList.keys d) ->
  NoDup (PermutationList.keys (PermutationList.add p d)).
Proof.
  intros Hnd. destruct (decide (p ∈ PermutationList.keys d)) as [H|H].
  - unfold PermutationList.add, PermutationList.keys. cbn [PermutationList.p_list].
    by rewrite od_update_keys_present.
  - rewrite keys_add_fresh by done. apply list.NoDup_app. split; [done|].
    split; [|apply NoDup_singleton].
    intros q Hq Hq'. apply list_elem_of_singleton in Hq' as ->. done.
Qed.

(** X11. [add] keeps the keys of a delta pairwise distinct: a
    transposition already in the delta is not recorded again, and the
    keys, their order included, stay as they were; a new one goes to
    the end. A delta cannot hold a transposition twice. *)
Theorem add_keeps_keys_distinct (p : transposition) (d : PermutationList.t) :
  p ∈ PermutationList.keys (PermutationList.add p d) /\
  (p ∈ PermutationList.keys d ->
     PermutationList.keys (PermutationList.add p d) = PermutationList.keys d) /\
  (p ∉ PermutationList.keys d ->
     PermutationList.keys (PermutationList.add p d)
     = PermutationList.keys d ++ [p]) /\
  (NoDup (PermutationList.keys d) ->
     NoDup (PermutationList.keys (PermutationList.add p d))).
Proof.
  assert (Hin : p ∈ PermutationList.keys d ->
     PermutationList.keys (PermutationList.add p d) = PermutationList.keys d)
    by apply od_update_keys_present.
  assert (Hout : p ∉ PermutationList.keys d ->
     PermutationList.keys (PermutationList.add p d)
     = PermutationList.keys d ++ [p]) by apply keys_add_fresh.
  split; [|split; [done|split; [done|]]].
  - destruct (decide (p ∈ PermutationList.keys d)) as [H|H].
    + by rewrite Hin.
    + rewrite Hout by done. apply elem_of_app. right. by left.
  - apply keys_add_NoDup.
Qed.

(** One turn of the loop on a working copy of the length of
    [self.list], whatever the elements. *)
Lemma sub_body_any (a : list Z) i w v :
  length w = length a -> (i < length a)%nat ->
  exists w' v', sub_body a i (w, v) = ret (w', v') /\ w' ≡ₚ w /\
    ((w' = w /\ v' = v) \/
     exists j, (i < j < length a)%nat /\ v' = PermutationList.add (i, j) v).
Proof.
  intros Hlen Hi.
  destruct (lookup_lt_is_Some_2 a i Hi) as [si Hsi].
  destruct (lookup_lt_is_Some_2 w i ltac:(lia)) as [oi Hoi].
  unfold sub_body, getitem. rewrite Hsi, Hoi. cbn [mbind result_bind ret].
  case_bool_decide as Hne; [|by eauto 10].
  destruct (search_spec w si (seq (S i) (length a - S i))) as (r & -> & Hr).
  { apply list.Forall_forall. intros j Hj%elem_of_seq. lia. }
  cbn [mbind result_bind ret]. destruct r as [j|]; [|by eauto 10].
  destruct Hr as [Hj%elem_of_seq Hwj].
  eexists _, _. split; [done|]. split.
  - by apply Permutation_insert_swap.
  - right. exists j. split; [lia|done].
Qed.

Lemma sub_loop_any (a b : list Z) randrange fuel k st r :
  in_range randrange (length a) ->
  length st.1 = length a -> st.1 ≡ₚ b ->
  Forall (fun p => (p.1 < p.2 < length a)%nat) (PermutationList.keys st.2) ->
  NoDup (PermutationList.keys st.2) ->
  sub_loop fuel randrange k a st = Some r ->
  exists v, r = ret v /\ a ≡ₚ b /\
    Forall (fun p => (p.1 < p.2 < length a)%nat) (PermutationList.keys v) /\
    NoDup (PermutationList.keys v).
Proof.
  intros Hrange. revert k st.
  induction fuel as [|fuel IH]; intros k [w v] Hlen Hperm Hwf Hnd;
    cbn [sub_loop fst snd] in *.
  - case_bool_decide as Hne; [done|]. intros [= <-].
    exists v. by subst w.
  - case_bool_decide as Hne.
    2: { intros [= <-]. exists v. by subst w. }
    case_bool_decide as Hempty.
    { exfalso. apply Hne. destruct a; [|done]. by destruct w. }
    destruct (sub_body_any a (randrange k) w v Hlen (Hrange k))
      as (w' & v' & -> & Hperm' & Hcase).
    apply IH; cbn [fst snd].
    + apply Permutation_length in Hperm'. lia.
    + by etrans.
    + destruct Hcase as [[_ ->]|(j & Hj & ->)]; [done|].
      apply list.Forall_forall. intros p Hp.
      apply od_update_keys_elem in Hp as [Hp| ->]; [|simpl; lia].
      by eapply list.Forall_forall in Hwf.
    + destruct Hcase as [[_ ->]|(j & Hj & ->)]; [done|].
      by apply keys_add_NoDup.
Qed.

(** X9. For any two sequences of one length, whatever their elements,
    and draws within range: the difference raises nothing; when it
    returns, [other] is a permutation of [self], so that on sequences
    that are not permutations of each other the loop runs for ever; and
    the transpositions [(i, j)] of the delta it returns are pairwise
    distinct and have [i < j < len(self.list)]. *)
Theorem difference_needs_permutation (a b : t) randrange :
  length (list_ a) = length (list_ b) ->
  in_range randrange (length (list_ a)) ->
  (forall fuel r, __sub__ fuel randrange a b = Some r ->
     exists v, r = ret v /\ list_ a ≡ₚ list_ b /\
       Forall (fun p => (p.1 < p.2 < length (list_ a))%nat)
              (PermutationList.keys v) /\
       NoDup (PermutationList.keys v)) /\
  (~ list_ a ≡ₚ list_ b ->
     forall fuel, __sub__ fuel randrange a b = None).
Proof.
  intros Hlen Hrange.
  assert (H : forall fuel r, __sub__ fuel randrange a b = Some r ->
     exists v, r = ret v /\ list_ a ≡ₚ list_ b /\
       Forall (fun p => (p.1 < p.2 < length (list_ a))%nat)
              (PermutationList.keys v) /\
       NoDup (PermutationList.keys v)).
  { intros fuel r Hsub. unfold __sub__ in Hsub.
    eapply sub_loop_any in Hsub;
      [exact Hsub|done|by cbn|by cbn|constructor|constructor]. }
  split; [exact H|].
  intros Hnot fuel. destruct (__sub__ fuel randrange a b) as [r|] eqn:E; [|done].
  destruct (H fuel r E) as (_ & _ & Hperm & _). by destruct Hnot.
Qed.

Lemma difference_needs_permutation_witness :
  length [1; 2; 3] = length [1; 1; 2] /\
  in_range round_robin_3 3 /\
  forall fuel,
    __sub__ fuel round_robin_3 (mk [1; 2; 3]) (mk [1; 1; 2]) = None.
Proof.
  split; [reflexivity|]. split; [exact round_robin_in_range|].
  destruct (difference_needs_permutation (mk [1; 2; 3]) (mk [1; 1; 2])
              round_robin_3 eq_refl round_robin_in_range) as [_ H].
  apply H. intros Hperm.
  assert (Hnot : 3 ∉ [1; 1; 2])
    by (apply (bool_decide_unpack _); reflexivity).
  apply Hnot. rewrite <- Hperm. cbn [list_]. by repeat constructor.
Defined.

Section Count.
Variable a : list Z.
Hypothesis a_NoDup : NoDup a.

(** Two permutations of a list without repetition that differ,
    differ at two positions at least. *)
Lemma mismatch_two w :
  w ≡ₚ a -> a ≠ w -> (matches a w + 2 <= length a)%nat.
Proof.
  intros Hperm Hne. pose proof (Permutation_length Hperm) as Hlen.
  destruct (first_mismatch a w ltac:(done) Hne) as (m & Hm & Hdiff & Hbefore).
  destruct (sub_body_progress a a_NoDup m w PermutationList.__init__ Hperm Hm)
    as (w' & v' & Hbody & [[-> ->]|Hswap]).
  { exfalso.
    assert (Hinv : sub_inv a w (w, PermutationList.__init__))
      by (apply sub_inv_init; by symmetry).
    eapply (sub_body_first_mismatch a a_NoDup) in Hbody;
      [done|exact Hinv|done..]. }
  destruct Hswap as (j & si & oi & Hij & Hsi & Hoi & Hwj & Hsioi & _).
  assert (Hjlt : (j < length w)%nat) by (by eapply lookup_lt_Some).
  destruct (lookup_lt_is_Some_2 a j ltac:(lia)) as [aj Haj].
  assert (Hajsi : aj ≠ si).
  { intros ->. pose proof (NoDup_lookup _ _ _ _ a_NoDup Hsi Haj). lia. }
  pose proof (matches_insert a w m si ltac:(lia) ltac:(lia)) as H1.
  rewrite Hsi, Hoi in H1.
  rewrite decide_False in H1 by congruence.
  rewrite decide_True in H1 by done.
  pose proof (matches_insert a (<[m := si]> w) j aj
                ltac:(rewrite length_insert; lia) ltac:(lia)) as H2.
  rewrite list_lookup_insert_ne in H2 by lia.
  rewrite Haj, Hwj in H2.
  rewrite decide_False in H2 by congruence.
  rewrite decide_True in H2 by done.
  pose proof (matches_le a (<[j:=aj]> (<[m:=si]> w))). lia.
Qed.

Variable b : list Z.
Hypothesis a_b : a ≡ₚ b.

(** One turn of the loop, counting the transpositions. *)
Lemma sub_body_count i st :
  sub_inv a b st -> (i < length a)%nat ->
  exists st', sub_body a i st = ret st' /\ sub_inv a b st' /\
    (st' = st \/
     length (PermutationList.keys st'.2)
     = S (length (PermutationList.keys st.2))).
Proof.
  intros Hinv Hi.
  destruct (sub_body_inv a a_NoDup b i st Hinv Hi)
    as (st' & Hbody & Hinv' & _).
  exists st'. split; [done|]. split; [done|].
  destruct st as [w v]. destruct Hinv as (Hperm & _ & Hfix & _).
  cbn [fst snd] in *.
  destruct (sub_body_progress a a_NoDup i w v Hperm Hi)
    as (w' & v' & Hbody' & [[-> ->]|Hswap]).
  { left. rewrite Hbody' in Hbody. by injection Hbody. }
  right. destruct Hswap as (j & si & oi & _ & Hsi & Hoi & _ & Hne & _ & -> & _).
  rewrite Hbody' in Hbody. injection Hbody as <-. cbn [snd].
  rewrite keys_add_fresh.
  - rewrite length_app. simpl. lia.
  - intros Hin. apply Hfix in Hin. congruence.
Qed.

Lemma sub_loop_count randrange fuel k st v :
  in_range randrange (length a) -> sub_inv a b st ->
  (st = (b, PermutationList.__init__) \/
   (1 <= length (PermutationList.keys st.2) /\
    length (PermutationList.keys st.2) + matches a b + 1 <= length a)%nat) ->
  sub_loop fuel randrange k a st = Some (ret v) ->
  (a = b /\ PermutationList.keys v = []) \/
  (a ≠ b /\ 1 <= length (PermutationList.keys v) /\
   length (PermutationList.keys v) + matches a b + 1 <= length a)%nat.
Proof.
  intros Hrange. revert k st.
  assert (Hexit : forall st : list Z * PermutationList.t,
    a = st.1 ->
    (st = (b, PermutationList.__init__) \/
     (1 <= length (PermutationList.keys st.2) /\
      length (PermutationList.keys st.2) + matches a b + 1 <= length a)%nat) ->
    (a = b /\ PermutationList.keys st.2 = []) \/
    (a ≠ b /\ 1 <= length (PermutationList.keys st.2) /\
     length (PermutationList.keys st.2) + matches a b + 1 <= length a)%nat).
  { intros st Heq [->|[H1 H2]]; [by left|right].
    split; [|done]. intros <-. rewrite matches_refl in H2. lia. }
  induction fuel as [|fuel IH]; intros k st Hinv HJ; cbn [sub_loop].
  - case_bool_decide as Hne; [done|]. intros [= <-]. by apply Hexit.
  - case_bool_decide as Hne.
    2: { intros [= <-]. by apply Hexit. }
    case_bool_decide as Hempty.
    { exfalso. destruct Hinv as (Hperm & _).
      apply Permutation_length in Hperm.
      apply Hne. destruct a; [|done]. by destruct st.1. }
    destruct (sub_body_count (randrange k) st Hinv (Hrange k))
      as (st' & -> & Hinv' & Hcase).
    apply IH; [done|].
    destruct Hcase as [->|Hlen]; [done|]. right.
    destruct Hinv as (Hperm & _ & _ & Hcount).
    pose proof (mismatch_two st.1 Hperm Hne). lia.
Qed.

End Count.

(** X10. For permutation states [a] and [b] and draws within range,
    when [a - b] returns: the delta is empty exactly when the sequences
    are equal; when they differ it holds at least one transposition and
    at most [a.get_distance_to(b.list) - 1] of them. *)
Theorem difference_shorter_than_distance (a b : t) randrange fuel v :
  NoDup (list_ a) -> list_ a ≡ₚ list_ b ->
  in_range randrange (length (list_ a)) ->
  __sub__ fuel randrange a b = Some (ret v) ->
  exists d : Z,
    get_distance_to a (AList (list_ b)) = ret d /\
    ((a = b /\ d = 0 /\ PermutationList.keys v = []) \/
     (a ≠ b /\ 1 <= Z.of_nat (length (PermutationList.keys v)) <= d - 1)).
Proof.
  intros Hnd Hperm Hrange Hsub.
  destruct a as [a], b as [b]. cbn [list_] in *.
  rewrite distance_equal_length by (by apply Permutation_length).
  eexists. split; [reflexivity|].
  unfold __sub__ in Hsub. cbn [list_] in Hsub.
  eapply (sub_loop_count a Hnd b Hperm) in Hsub;
    [|done|by apply sub_inv_init|by left].
  pose proof (matches_le a b) as Hle.
  destruct Hsub as [[-> Hkeys]|(Hne & H1 & H2)].
  - left. rewrite matches_refl. split; [done|]. split; [lia|done].
  - right. split; [congruence|]. lia.
Qed.

Lemma difference_shorter_than_distance_witness :
  NoDup [1; 2; 3; 4] /\ [1; 2; 3; 4] ≡ₚ [4; 3; 2; 1] /\
  in_range round_robin_3 4 /\
  exists v d,
    __sub__ 10 round_robin_3 (mk [1; 2; 3; 4]) (mk [4; 3; 2; 1])
      = Some (ret v) /\
    get_distance_to (mk [1; 2; 3; 4]) (AList [4; 3; 2; 1]) = ret d /\
    Z.of_nat (length (PermutationList.keys v)) <= d - 1.
Proof.
  assert (Hnd : NoDup (list_ (mk [1; 2; 3; 4])))
    by (apply (bool_decide_unpack _); reflexivity).
  assert (Hperm : list_ (mk [1; 2; 3; 4]) ≡ₚ list_ (mk [4; 3; 2; 1])).
  { cbn [list_]. change [4; 3; 2; 1] with (reverse [1; 2; 3; 4]).
    by rewrite reverse_Permutation. }
  assert (Hrange : in_range round_robin_3 (length (list_ (mk [1; 2; 3; 4])))).
  { intros k. unfold round_robin_3. cbn [list_ length].
    pose proof (Nat.mod_upper_bound k 3). lia. }
  split; [exact Hnd|]. split; [exact Hperm|]. split; [exact Hrange|].
  eexists. 
  destruct (difference_shorter_than_distance (mk [1; 2; 3; 4])
              (mk [4; 3; 2; 1]) round_robin_3 10 _ Hnd Hperm Hrange
              sub_reversed)
    as (d & Hd & [(Hab & _)|(_ & _ & Hle)]); [discriminate Hab|].
  exists d. split; [reflexivity|]. split; [exact Hd|exact Hle].
Defined.

End DifferenceMore.

(** ** Scaling: what a returned list can be *)

Section ScalingMore.
Import PermutationList.

Lemma slice_to_prefix_of {A : Type} (l : list A) (n : Z) :
  slice_to l n `prefix_of` l.
Proof. unfold slice_to. apply prefix_take. Qed.

(** A float that is neither below [0.0] nor above [1.0], and is not
    NaN, lies between them. *)
Lemma float_between (r : float) :
  SFltb r float_0 = false -> SFltb float_1 r = false -> r ≠ S754_nan ->
  SFleb float_0 r = true /\ SFleb r float_1 = true.
Proof.
  intros H0 H1 Hnan. destruct r as [s|s| |s m e]; [| |done|].
  - by destruct s.
  - by destruct s.
  - destruct s; [done|]. split; [done|].
    unfold SFltb, SFleb, float_1, SFcompare in *.
    rewrite (Z.compare_antisym e (-52)) in H1.
    destruct (e ?= -52) eqn:He; cbn [CompOpp] in *; try done.
    pose proof (Pos.compare_cont_antisym m 4503599627370496 Eq) as Ha.
    cbn [CompOpp] in Ha.
    change (PosDef.Pos.compare_cont Eq 4503599627370496 m)
      with (Pos.compare_cont Eq 4503599627370496 m) in H1.
    rewrite <- Ha in H1.
    change (PosDef.Pos.compare_cont Eq m 4503599627370496)
      with (Pos.compare_cont Eq m 4503599627370496).
    by destruct (Pos.compare_cont Eq m 4503599627370496).
Qed.

(** X12. Whatever the factor, [__rmul__] leaves the delta as it is,
    and when it returns a list, the list is a prefix of the keys of the
    delta, the factor is an int or a float, and a float factor lies
    between [0.0] and [1.0] (NaN and the infinities raise too). *)
Theorem scale_returns_a_prefix (self : t) (n : pyobj) (l : list transposition) :
  (__rmul__ self n).1 = ret l ->
  l `prefix_of` keys self /\
  (__rmul__ self n).2 = self /\
  match n with
  | PyInt _ => True
  | PyFloat r => SFleb float_0 r = true /\ SFleb r float_1 = true
  | _ => False
  end.
Proof.
  destruct n as [|k|r|l'|p]; cbn [__rmul__ fst snd]; try done.
  - intros [= <-]. split; [apply slice_to_prefix_of|done].
  - destruct (SFltb r float_0) eqn:H0; [done|].
    destruct (SFltb float_1 r) eqn:H1; [done|].
    cbn [orb fst snd].
    destruct (float_of_int (Z.of_nat (length (keys self)))) as [e|len];
      [done|].
    cbn [mbind result_bind].
    destruct (round (float_mul r len)) as [e|stop] eqn:Hround; [done|].
    cbn [mbind result_bind ret]. intros [= <-].
    split; [apply slice_to_prefix_of|]. split; [done|].
    apply float_between; [done|done|].
    intros ->. by destruct len.
Qed.

Lemma scale_returns_a_prefix_witness :
  (__rmul__ example_delta (PyFloat (decimal 5 1))).1 = ret [(0, 1)%nat] /\
  [(0, 1)%nat] `prefix_of` keys example_delta /\
  SFleb (decimal 5 1) float_1 = true.
Proof.
  assert (H : (__rmul__ example_delta (PyFloat (decimal 5 1))).1
              = ret [(0, 1)%nat]) by reflexivity.
  split; [exact H|].
  destruct (scale_returns_a_prefix example_delta (PyFloat (decimal 5 1))
              [(0, 1)%nat] H) as (Hpre & _ & _ & Hle).
  split; [exact Hpre|exact Hle].
Defined.

End ScalingMore.

(** ** The update of a particle *)

Section Update.
Import ParticleObject.

(** X13. [Particle.update] never returns normally, whatever the
    coefficients, the global best and the draws: when its call ends, it
    ends in an exception. The position, the personal best and its value
    are as before the call. The velocity is as before, except when the
    call reaches its last statement: there the velocity has been
    replaced by a Python list, and [self.x + self.v] raises [TypeError]
    on it. On a particle left so, every further call raises [TypeError]
    at once and changes nothing. *)
Theorem update_always_raises fuel randrange_p randrange_g
    (w phip rp phig rg : float) (best_global : option Sequence.t) (self : t) :
  (forall r self',
     update fuel randrange_p randrange_g w phip rp phig rg best_global self
       = Some (r, self') ->
     (exists e, r = raise e) /\
     x self' = x self /\ best self' = best self /\
     best_value self' = best_value self /\
     (v self' = v self \/
      (r = raise TypeError /\ exists l, v self' = VList l))) /\
  (forall l, v self = VList l ->
     update fuel randrange_p randrange_g w phip rp phig rg best_global self
       = Some (raise TypeError, self)).
Proof.
  split.
  - intros r self'. unfold update.
    destruct (scale_velocity w (v self)) as [e|a];
      [intros [= <- <-]; by eauto 10|].
    destruct (Sequence.__sub__ fuel randrange_p (best self) (x self))
      as [[e|dp]|]; [intros [= <- <-]; by eauto 10| |done].
    destruct (PermutationList.__rmul__ dp _).1 as [e|b];
      [intros [= <- <-]; by eauto 10|].
    destruct best_global as [bg|]; [|intros [= <- <-]; by eauto 10].
    destruct (Sequence.__sub__ fuel randrange_g bg (x self))
      as [[e|dg]|]; [intros [= <- <-]; by eauto 10| |done].
    destruct (PermutationList.__rmul__ dg _).1 as [e|c];
      [intros [= <- <-]; by eauto 10|].
    cbn. intros [= <- <-]. cbn. split; [by eauto|].
    repeat (split; [done|]). right. by eauto.
  - intros l Hv. unfold update. by rewrite Hv.
Qed.

Example update_reaches_the_last_statement :
  update 1 (fun _ => 0%nat) (fun _ => 0%nat)
    float_1 float_1 float_1 float_1 float_1 (Some (Sequence.mk [1; 2]))
    (of_particle (Particle.mk (Sequence.mk [2; 1]) PermutationList.__init__
                              (Sequence.mk [2; 1]) (Int 1)))
  = Some (raise TypeError,
          mk (Sequence.mk [2; 1]) (VList [(0, 1)%nat])
             (Sequence.mk [2; 1]) (Int 1)).
Proof. reflexivity. Qed.

Example update_inertia_above_one :
  update 1 (fun _ => 0%nat) (fun _ => 0%nat)
    (decimal 15 1) float_1 float_1 float_1 float_1 (Some (Sequence.mk [1; 2]))
    (of_particle (Particle.mk (Sequence.mk [2; 1]) PermutationList.__init__
                              (Sequence.mk [2; 1]) (Int 1)))
  = Some (raise ValueError,
          of_particle (Particle.mk (Sequence.mk [2; 1]) PermutationList.__init__
                                   (Sequence.mk [2; 1]) (Int 1))).
Proof. reflexivity. Qed.

Example update_without_global_best :
  update 1 (fun _ => 0%nat) (fun _ => 0%nat)
    float_1 float_1 float_1 float_1 float_1 None
    (of_particle (Particle.mk (Sequence.mk [2; 1]) PermutationList.__init__
                              (Sequence.mk [2; 1]) (Int 1)))
  = Some (raise TypeError,
          of_particle (Particle.mk (Sequence.mk [2; 1]) PermutationList.__init__
                                   (Sequence.mk [2; 1]) (Int 1))).
Proof. reflexivity. Qed.

End Update.

(** ** The cost function on solutions *)

Section CostZero.

(** X14. The cost function is never negative, and it returns 0
    exactly on the lists in which no two rows [i < j] have
    [|Q_i - Q_j| = |i - j|]: the placements without two queens on one
    diagonal. *)
Theorem cost_function_zero (x : list Z) :
  0 <= cost_function x /\
  (cost_function x = 0 <->
   forall i j, (i < j < length x)%nat -> conflict x i j = false).
Proof.
  rewrite cost_function_conflict_pairs. split; [lia|].
  unfold conflict_pairs. split.
  - intros H0 i j Hij.
    assert (Hnil : filter (fun p : nat * nat =>
               (p.1 < p.2)%nat /\ conflict x p.1 p.2 = true)
             (list_prod (seq 0 (length x)) (seq 0 (length x))) = [])
      by (apply nil_length_inv; lia).
    destruct (conflict x i j) eqn:E; [exfalso|done].
    eapply (filter_nil_not_elem_of _ _ (i, j) Hnil).
    + cbn [fst snd]. split; [lia|done].
    + apply list_elem_of_In, in_prod; apply list_elem_of_In, elem_of_seq; lia.
  - intros Hall.
    replace (filter _ _) with (@nil (nat * nat)); [done|]. symmetry.
    apply elem_of_nil_inv. intros [i j] Hin.
    apply list_elem_of_filter in Hin as [[Hlt Hc] Hin].
    apply list_elem_of_In, in_prod_iff in Hin as [Hi Hj].
    apply list_elem_of_In, elem_of_seq in Hj.
    cbn [fst snd] in *. rewrite Hall in Hc by lia. done.
Qed.

End CostZero.
